(** * Verification of the name-alteration engine ([alterations/alterations.go])

    A shallow embedding of the frequency cache, of the generator state and of
    the six generators of candidate names, followed by the properties that the
    specification states about them.

    Conventions of the embedding.
    - A Go [string] is a Rocq [string] (a sequence of bytes). The embedding
      covers ASCII names, the names of the DNS: there a rune is a byte, so
      [[]rune(str)] and [string(runes)] convert between a string and the list
      of its characters, byte indices are character indices, and
      [unicode.IsNumber] holds exactly for the ten digits.
    - A Go [int] is a [Z] of 64 bits in two's complement; the only arithmetic
      of the program, the increment of a counter, wraps around ([int_wrap]).
    - A Go map is a [gmap], the external string set is a [gset]: both forget
      the iteration order, which Go leaves unspecified.
    - A call either returns or stops with a run-time panic ([outcome]); the
      generators, methods of [*State], run in the state monad [M].
    - The embedding is sequential: the locks of [sync.RWMutex] are taken and
      released around the same steps as in the source and do nothing else. *)

From Stdlib Require Import ZArith Ascii String DecimalString.
From stdpp Require Import base tactics option list gmap strings.

Local Open Scope Z_scope.

(** ** Machine integers *)

Definition int_bits : Z := 64.
Definition max_int : Z := 2 ^ (int_bits - 1) - 1.
Definition min_int : Z := - 2 ^ (int_bits - 1).

(** The value of an [int] expression whose mathematical value is [z]. *)
Definition int_wrap (z : Z) : Z :=
  (z + 2 ^ (int_bits - 1)) mod 2 ^ int_bits - 2 ^ (int_bits - 1).

(** ** Outcomes of a call *)

Inductive runtime_error : Type :=
  | IndexOutOfRange (index len : nat).

Inductive outcome (A : Type) : Type :=
  | Returned (a : A)
  | Panicked (e : runtime_error).

Arguments Returned {A} a.
Arguments Panicked {A} e.

#[global] Instance outcome_ret : MRet outcome := fun A a => Returned a.
#[global] Instance outcome_bind : MBind outcome := fun A B f m =>
  match m with
  | Returned a => f a
  | Panicked e => Panicked e
  end.

(** [l[i]] on a slice: a run-time panic when [i] is out of range. *)
Definition index {A : Type} (l : list A) (i : nat) : outcome A :=
  match l !! i with
  | Some x => Returned x
  | None => Panicked (IndexOutOfRange i (length l))
  end.

(** ** The functions of the Go library that the program calls *)

(** [strings.SplitN(s, sep, 2)] for a separator of one character: the part
    before the first separator and the part after it, or [s] alone. *)
Fixpoint cut (sep : ascii) (s : string) : option (string * string) :=
  match s with
  | EmptyString => None
  | String c s' =>
      if Ascii.eqb c sep then Some (EmptyString, s')
      else match cut sep s' with
           | Some (a, b) => Some (String c a, b)
           | None => None
           end
  end.

Definition strings_SplitN2 (s : string) (sep : ascii) : list string :=
  match cut sep s with
  | Some (a, b) => [a; b]
  | None => [s]
  end.

(** [strings.Split(s, sep)] for a separator of one character. *)
Fixpoint strings_Split (s : string) (sep : ascii) : list string :=
  match s with
  | EmptyString => [EmptyString]
  | String c s' =>
      if Ascii.eqb c sep then EmptyString :: strings_Split s' sep
      else match strings_Split s' sep with
           | p :: ps => String c p :: ps
           | [] => [String c EmptyString]
           end
  end.

(** [strings.Join(parts, sep)]. *)
Fixpoint strings_Join (parts : list string) (sep : string) : string :=
  match parts with
  | [] => ""
  | [p] => p
  | p :: ps => p +:+ sep +:+ strings_Join ps sep
  end.

(** [strings.Trim(s, cutset)] for a cutset of one character. *)
Fixpoint strings_TrimLeft (s : string) (c : ascii) : string :=
  match s with
  | EmptyString => EmptyString
  | String a s' => if Ascii.eqb a c then strings_TrimLeft s' c else s
  end.

Fixpoint strings_TrimRight (s : string) (c : ascii) : string :=
  match s with
  | EmptyString => EmptyString
  | String a s' =>
      match strings_TrimRight s' c with
      | EmptyString => if Ascii.eqb a c then EmptyString else String a EmptyString
      | r => String a r
      end
  end.

Definition strings_Trim (s : string) (c : ascii) : string :=
  strings_TrimRight (strings_TrimLeft s c) c.

(** [unicode.IsNumber] on an ASCII character. *)
Definition unicode_IsNumber (c : ascii) : bool :=
  (48 <=? nat_of_ascii c)%nat && (nat_of_ascii c <=? 57)%nat.

(** [strings.IndexFunc(s, f)]: the index of the first character that
    satisfies [f], or [-1]. *)
Fixpoint strings_IndexFunc (s : string) (f : ascii → bool) : Z :=
  match s with
  | EmptyString => -1
  | String c s' =>
      if f c then 0
      else let r := strings_IndexFunc s' f in
           if r <? 0 then -1 else r + 1
  end.

(** [strings.LastIndexFunc(s, f)]: the index of the last character that
    satisfies [f], or [-1]. *)
Fixpoint strings_LastIndexFunc (s : string) (f : ascii → bool) : Z :=
  match s with
  | EmptyString => -1
  | String c s' =>
      let r := strings_LastIndexFunc s' f in
      if 0 <=? r then r + 1
      else if f c then 0 else -1
  end.

(** [strconv.Itoa(i)] for [i >= 0]. *)
Definition strconv_Itoa (i : nat) : string :=
  NilZero.string_of_uint (Nat.to_uint i).

(** The slice expressions [s[:i]] and [s[i:]] for [0 <= i <= len(s)]; the
    program only slices at, or just after, the index of a character that it
    found in a prefix of [s]. *)
Fixpoint string_take (n : nat) (s : string) : string :=
  match n, s with
  | S n', String c s' => String c (string_take n' s')
  | _, _ => EmptyString
  end.

Fixpoint string_drop (n : nat) (s : string) : string :=
  match n, s with
  | S n', String _ s' => string_drop n' s'
  | _, _ => s
  end.

Definition slice_to (s : string) (i : Z) : string := string_take (Z.to_nat i) s.
Definition slice_from (s : string) (i : Z) : string := string_drop (Z.to_nat i) s.

(** [[]rune(str)] and [string(runes)]. *)
Definition runes (s : string) : list ascii := list_ascii_of_string s.
Definition string_of_runes (r : list ascii) : string := string_of_list_ascii r.

(** Modelled from the spec: the package [stringset] of the repository is not
    part of the sources at hand. The specification describes it as a
    deduplicating set of strings with [insert], [insertMany] and an export in
    arbitrary order. *)
Definition stringset_New : gset string := ∅.
Definition stringset_Insert (s : gset string) (x : string) : gset string :=
  {[ x ]} ∪ s.
Definition stringset_InsertMany (s : gset string) (xs : list string) : gset string :=
  foldl stringset_Insert s xs.

(** ** The frequency cache *)

Definition ldhChars : string := "abcdefghijklmnopqrstuvwxyz0123456789-".

Record Cache : Type := mkCache { Counters : gmap string Z }.

Definition NewCache (seed : list string) : Cache :=
  mkCache (foldl (fun m word => <[word := 0]> m) ∅ seed).

(** [Update] takes the lock, counts the word and returns its new count. *)
Definition Update (c : Cache) (word : string) : Cache * Z :=
  let counters :=
    match Counters c !! word with
    | Some n => <[word := int_wrap (n + 1)]> (Counters c)
    | None => <[word := 1]> (Counters c)
    end in
  (mkCache counters, default 0 (counters !! word)).

(** [n] calls of [Update] on the same word, one after the other. *)
Definition Updates (n : N) (c : Cache) (word : string) : Cache :=
  N.iter n (fun c' => fst (Update c' word)) c.

(** ** The generator state *)

Record State : Type := mkState {
  MinForWordFlip : Z;
  EditDistance : Z;
  Prefixes : Cache;
  Suffixes : Cache
}.

Definition NewState (wordlist : list string) : State :=
  mkState 0 0 (NewCache wordlist) (NewCache wordlist).

(** Methods of [*State]: they read and write the state and return or panic. *)
Definition M (A : Type) : Type := State → State * outcome A.

#[global] Instance M_ret : MRet M := fun A a s => (s, Returned a).
#[global] Instance M_bind : MBind M := fun A B f m s =>
  match m s with
  | (s', Returned a) => f a s'
  | (s', Panicked e) => (s', Panicked e)
  end.

Definition lift {A : Type} (o : outcome A) : M A := fun s => (s, o).
Definition get : M State := fun s => (s, Returned s).

Definition Prefixes_Update (word : string) : M Z := fun s =>
  let '(c, n) := Update (Prefixes s) word in
  (mkState (MinForWordFlip s) (EditDistance s) c (Suffixes s), Returned n).

Definition Suffixes_Update (word : string) : M Z := fun s =>
  let '(c, n) := Update (Suffixes s) word in
  (mkState (MinForWordFlip s) (EditDistance s) (Prefixes s) c, Returned n).

(** [RLock(); ... read Counters ...; RUnlock()]: the counters as the reader
    sees them while it holds the lock. *)
Definition Prefixes_RLocked : M (gmap string Z) :=
  s ← get; mret (Counters (Prefixes s)).
Definition Suffixes_RLocked : M (gmap string Z) :=
  s ← get; mret (Counters (Suffixes s)).

(** [for k, count := range counters { acc = body k count acc }], where the
    body may panic. *)
Definition range_map {B : Type} (counters : gmap string Z)
    (body : string → Z → B → outcome B) (init : B) : outcome B :=
  map_fold (fun k count acc => acc ≫= body k count) (Returned init) counters.

(** [for i := from; i < from + n; i++ { acc = body i acc }]. *)
Definition range_int {B : Type} (from n : nat)
    (body : nat → B → outcome B) (init : B) : outcome B :=
  foldl (fun acc i => acc ≫= body i) (Returned init) (seq from n).

(** [for _, x := range l { acc = body x acc }], where the body may panic. *)
Definition range_list {A B : Type} (l : list A)
    (body : A → B → outcome B) (init : B) : outcome B :=
  foldl (fun acc x => acc ≫= body x) (Returned init) l.

(** ** Word flips *)

Definition FlipWords (name : string) : M (gset string) :=
  let names := strings_SplitN2 name "." in
  subdomain ← lift (index names 0);
  domain ← lift (index names 1);
  let parts := strings_Split subdomain "-" in
  if (length parts <? 2)%nat then mret ∅
  else
    let newNames := stringset_New in
    pre ← lift (index parts 0);
    _ ← Prefixes_Update pre;
    s ← get;
    counters ← Prefixes_RLocked;
    newNames ← lift (range_map counters (fun k count acc =>
      if MinForWordFlip s <=? count
      then Returned (stringset_Insert acc
             (k +:+ "-" +:+ strings_Join (drop 1 parts) "-" +:+ "." +:+ domain))
      else Returned acc) newNames);
    post ← lift (index parts (length parts - 1));
    _ ← Suffixes_Update post;
    s ← get;
    counters ← Suffixes_RLocked;
    newNames ← lift (range_map counters (fun k count acc =>
      if MinForWordFlip s <=? count
      then Returned (stringset_Insert acc
             (strings_Join (take (length parts - 1) parts) "-" +:+ "-" +:+ k
                +:+ "." +:+ domain))
      else Returned acc) newNames);
    mret newNames.

(** ** Number flips *)

Definition secondNumberFlip (name : string) (minIndex : Z) : outcome (list string) :=
  let parts := strings_SplitN2 name "." in
  p0 ← index parts 0;
  let last := strings_LastIndexFunc p0 unicode_IsNumber in
  if (last <? 0) || (last <? minIndex) then Returned [name]
  else
    newNames ← range_int 0 10 (fun i newNames =>
      let n := slice_to name last +:+ strconv_Itoa i +:+ slice_from name (last + 1) in
      Returned (newNames ++ [n])) [];
    Returned (newNames ++ [slice_to name last +:+ slice_from name (last + 1)]).

Definition FlipNumbers (name : string) : M (gset string) :=
  let n := name in
  let parts := strings_SplitN2 n "." in
  p0 ← lift (index parts 0);
  let first := strings_IndexFunc p0 unicode_IsNumber in
  if first <? 0 then mret ∅
  else
    newNames ← lift (range_int 0 10 (fun i newNames =>
      let sf := slice_to n first +:+ strconv_Itoa i +:+ slice_from n (first + 1) in
      l ← secondNumberFlip sf (first + 1);
      Returned (stringset_InsertMany newNames l)) stringset_New);
    l ← lift (secondNumberFlip (slice_to n first +:+ slice_from n (first + 1)) (-1));
    mret (stringset_InsertMany newNames l).

(** ** Appended numbers and words *)

Definition addSuffix (parts : list string) (suffix : string) : outcome (list string) :=
  a0 ← index parts 0;
  a1 ← index parts 1;
  b0 ← index parts 0;
  b1 ← index parts 1;
  Returned [a0 +:+ suffix +:+ "." +:+ a1; b0 +:+ "-" +:+ suffix +:+ "." +:+ b1].

Definition addPrefix (name prefix : string) : list string :=
  [prefix +:+ name; prefix +:+ "-" +:+ name].

Definition AppendNumbers (name : string) : M (gset string) :=
  let parts := strings_SplitN2 name "." in
  p0 ← lift (index parts 0);
  let parts := <[0%nat := strings_Trim p0 "-"]> parts in
  p0 ← lift (index parts 0);
  if decide (p0 = "") then mret ∅
  else
    lift (range_int 0 10 (fun i newNames =>
      l ← addSuffix parts (strconv_Itoa i);
      Returned (stringset_InsertMany newNames l)) stringset_New).

Definition AddSuffixWord (name : string) : M (gset string) :=
  let parts := strings_SplitN2 name "." in
  counters ← Suffixes_RLocked;
  p0 ← lift (index parts 0);
  let parts := <[0%nat := strings_Trim p0 "-"]> parts in
  p0 ← lift (index parts 0);
  if decide (p0 = "") then mret ∅
  else
    s ← get;
    lift (range_map counters (fun word count newNames =>
      if MinForWordFlip s <=? count
      then l ← addSuffix parts word; Returned (stringset_InsertMany newNames l)
      else Returned newNames) stringset_New).

Definition AddPrefixWord (name : string) : M (gset string) :=
  counters ← Prefixes_RLocked;
  let name := strings_Trim name "-" in
  if decide (name = "") then mret ∅
  else
    s ← get;
    lift (range_map counters (fun word count newNames =>
      if MinForWordFlip s <=? count
      then Returned (stringset_InsertMany newNames (addPrefix name word))
      else Returned newNames) stringset_New).

(** ** Fuzzy label searches *)

(** [copy(t[d:], t[s:])] inside one array: as many cells as both slices have,
    moved as by [memmove]. *)
Definition copy_within (t : list ascii) (d s : nat) : list ascii :=
  let n := Nat.min (length t - d) (length t - s) in
  take d t ++ take n (drop s t) ++ drop (d + n) t.

(** [append(b[:i], b[j:]...)] for [i <= j]: the result fits the array of [b]
    and is written into it. The function returns the result and the content
    of [b] afterwards: the cells behind the result keep what they held. *)
Definition append_within (b : list ascii) (i j : nat) : list ascii * list ascii :=
  let res := take i b ++ drop j b in
  (res, res ++ drop (length res) b).

(** The three edits run over the candidates, over the positions of a
    candidate and over the symbols of the alphabet; each loop carries the
    array of [rstr] and the slice [results]. *)

(** The capacity of the slice that [[]rune(str)] makes is chosen by the Go
    run time (at least the length); [runecap] gives it for each length.
    [append(rstr, ldh[0])] writes behind [rstr] into the same array when there
    is room ([shared]), and copies [rstr] to a new array when there is none. *)
Definition additions_symbol (shared : bool) (ldh0 : ascii) (rlen i : nat)
    (acc : list ascii * list string) (c : ascii) : list ascii * list string :=
  let '(rstr, results) := acc in
  let temp := rstr ++ [ldh0] in
  let temp := copy_within temp (i + 1) i in
  let temp := <[i := c]> temp in
  (if shared then take rlen temp else rstr, results ++ [string_of_runes temp]).

Definition additions_position (shared : bool) (ldh : list ascii) (rlen : nat)
    (acc : list ascii * list string) (i : nat) : list ascii * list string :=
  foldl (additions_symbol shared (nth 0 ldh "a"%char) rlen i) acc ldh.

Definition additions_string (runecap : nat → nat) (ldh : list ascii)
    (results : list string) (str : string) : list string :=
  let rstr := runes str in
  let rlen := length rstr in
  let shared := (rlen <? runecap rlen)%nat in
  snd (foldl (additions_position shared ldh rlen) (rstr, results) (seq 0 (rlen + 1))).

Definition additions (runecap : nat → nat) (set : list string) : list string :=
  let ldh := runes ldhChars in
  foldl (additions_string runecap ldh) [] set.

Definition deletions_position (acc : list ascii * list string) (i : nat)
    : list ascii * list string :=
  let '(rstr, results) := acc in
  let '(del, rstr) := append_within rstr i (i + 1) in
  (rstr,
   if decide (string_of_runes del = "") then results
   else results ++ [string_of_runes del]).

Definition deletions_string (results : list string) (str : string) : list string :=
  let rstr := runes str in
  let rlen := length rstr in
  snd (foldl deletions_position (rstr, results) (seq 0 rlen)).

Definition deletions (set : list string) : list string :=
  foldl deletions_string [] set.

Definition substitutions_symbol (i : nat)
    (acc : list ascii * list string) (c : ascii) : list ascii * list string :=
  let '(temp, results) := acc in
  let temp := <[i := c]> temp in
  (temp, results ++ [string_of_runes temp]).

(** [temp := rstr] makes [temp] a second name of the array of [rstr]: the
    loop over the symbols goes on with the array that it was given. *)
Definition substitutions_position (ldh : list ascii)
    (acc : list ascii * list string) (i : nat) : list ascii * list string :=
  foldl (substitutions_symbol i) acc ldh.

Definition substitutions_string (ldh : list ascii)
    (results : list string) (str : string) : list string :=
  let rstr := runes str in
  let rlen := length rstr in
  snd (foldl (substitutions_position ldh) (rstr, results) (seq 0 rlen)).

Definition substitutions (set : list string) : list string :=
  let ldh := runes ldhChars in
  foldl (substitutions_string ldh) [] set.

(** One round of edits over the candidates found so far. *)
Definition fuzz_round (runecap : nat → nat) (results : list string) : list string :=
  let conv := additions runecap results ++ deletions results ++ substitutions results in
  results ++ conv.

Definition FuzzyLabelSearches (runecap : nat → nat) (name : string) : M (gset string) :=
  let parts := strings_SplitN2 name "." in
  p0 ← lift (index parts 0);
  s ← get;
  let results := Nat.iter (Z.to_nat (EditDistance s)) (fuzz_round runecap) [p0] in
  lift (range_list results (fun alt newNames =>
    let label := strings_Trim alt "-" in
    if decide (label = "") then Returned newNames
    else
      p1 ← index parts 1;
      Returned (stringset_Insert newNames (label +:+ "." +:+ p1))) stringset_New).


(** ** Vocabulary of the statements *)

(** The character [c] occurs in [s]. *)
Fixpoint has_char (c : ascii) (s : string) : bool :=
  match s with
  | EmptyString => false
  | String a s' => Ascii.eqb a c || has_char c s'
  end.

(** The word can be counted once more: it is new, or its count is not
    negative and below the largest [int]. *)
Definition countable_word (c : Cache) (word : string) : Prop :=
  match Counters c !! word with
  | Some n => 0 ≤ n < max_int
  | None => True
  end.

(** The string [s] ends with [suffix]. *)
Definition ends_with (s suffix : string) : Prop := ∃ p, s = p +:+ suffix.




(** The array of the candidate [r] after the deletions for the positions
    before [k]: every deletion has moved the cells behind its position one
    place to the front and left the last cell as it was. *)
Definition array_after (r : list ascii) (k : nat) : list ascii :=
  (fun j => nth (Nat.min (length r - 1) (j + Nat.min k (j + 1))) r "-"%char)
    <$> seq 0 (length r).

(** A method that leaves the state as it found it. *)
Definition read_only {A : Type} (m : M A) : Prop := ∀ s, fst (m s) = s.

(** * Properties *)

(** The empty set has no element to check. *)
Ltac nothing_in_empty :=
  let x := fresh "x" in
  let H := fresh "H" in
  intros x H; by apply elem_of_empty in H.

(** ** Strings *)

Lemma append_String c (a b : string) : String c a +:+ b = String c (a +:+ b).
Proof. reflexivity. Qed.

Lemma append_assoc (a b c : string) : (a +:+ b) +:+ c = a +:+ b +:+ c.
Proof. induction a as [|x a IH]; [done|]. by rewrite !append_String, IH. Qed.

Lemma cut_app sep (a b : string) :
  has_char sep a = false → cut sep (a +:+ String sep b) = Some (a, b).
Proof.
  induction a as [|c a IH]; simpl; intros H.
  - by rewrite Ascii.eqb_refl.
  - apply orb_false_iff in H as [Hc Ha]. by rewrite Hc, (IH Ha).
Qed.

Lemma cut_none sep (s : string) : has_char sep s = false → cut sep s = None.
Proof.
  induction s as [|c s IH]; simpl; [done|]. intros H.
  apply orb_false_iff in H as [Hc Hs]. by rewrite Hc, (IH Hs).
Qed.

Lemma strings_SplitN2_app sep (label rest : string) :
  has_char sep label = false →
  strings_SplitN2 (label +:+ String sep rest) sep = [label; rest].
Proof. intros H. unfold strings_SplitN2. by rewrite cut_app. Qed.

Lemma strings_SplitN2_dot (label rest : string) :
  has_char "." label = false →
  strings_SplitN2 (label +:+ "." +:+ rest) "." = [label; rest].
Proof. apply strings_SplitN2_app. Qed.

Lemma strings_SplitN2_none sep (s : string) :
  has_char sep s = false → strings_SplitN2 s sep = [s].
Proof. intros H. unfold strings_SplitN2. by rewrite cut_none. Qed.

Lemma index_SplitN2_0 (s : string) sep :
  ∃ p, index (strings_SplitN2 s sep) 0 = Returned p.
Proof. unfold strings_SplitN2. destruct (cut sep s) as [[a b]|]; by eexists. Qed.

Lemma strings_Split_nonempty (s : string) sep : strings_Split s sep ≠ [].
Proof.
  induction s as [|c s IH]; simpl; [done|].
  destruct (Ascii.eqb c sep); [done|]. by destruct (strings_Split s sep).
Qed.

Lemma strings_Split_none sep (s : string) :
  has_char sep s = false → strings_Split s sep = [s].
Proof.
  induction s as [|c s IH]; simpl; [done|]. intros H.
  apply orb_false_iff in H as [Hc Hs]. by rewrite Hc, (IH Hs).
Qed.

Lemma strings_Split_some sep (s : string) :
  has_char sep s = true → (2 ≤ length (strings_Split s sep))%nat.
Proof.
  induction s as [|c s IH]; simpl; [done|]. intros H.
  destruct (Ascii.eqb c sep) eqn:Hc; simpl in *.
  - pose proof (strings_Split_nonempty s sep).
    destruct (strings_Split s sep); [done|]. simpl. lia.
  - specialize (IH H). destruct (strings_Split s sep); simpl in *; lia.
Qed.

Lemma strings_Join_Split (s : string) (sep : ascii) :
  strings_Join (strings_Split s sep) (String sep "") = s.
Proof.
  induction s as [|c s IH]; simpl; [done|].
  pose proof (strings_Split_nonempty s sep) as Hne.
  destruct (Ascii.eqb c sep) eqn:Hc.
  - apply Ascii.eqb_eq in Hc as ->.
    destruct (strings_Split s sep) as [|p ps]; [done|].
    change (strings_Join ("" :: p :: ps) (String sep ""))
      with ("" +:+ String sep "" +:+ strings_Join (p :: ps) (String sep "")).
    by rewrite IH.
  - destruct (strings_Split s sep) as [|p ps]; [done|].
    destruct ps as [|q ps]; simpl in *; [by rewrite IH|].
    by rewrite append_String, IH.
Qed.

Lemma strings_Join_cons (p : string) (ps : list string) (sep : string) :
  ps ≠ [] → strings_Join (p :: ps) sep = p +:+ sep +:+ strings_Join ps sep.
Proof. by destruct ps. Qed.

Lemma strings_Join_snoc (l : list string) (q sep : string) :
  l ≠ [] → strings_Join (l ++ [q]) sep = strings_Join l sep +:+ sep +:+ q.
Proof.
  induction l as [|p l IH]; [done|]. intros _.
  destruct l as [|p' l]; [done|].
  change ((p :: p' :: l) ++ [q]) with (p :: ((p' :: l) ++ [q])).
  rewrite strings_Join_cons by done. rewrite IH by done.
  rewrite (strings_Join_cons p (p' :: l)) by done.
  by rewrite !append_assoc.
Qed.

Lemma strings_Trim_nonempty (c : ascii) (r : string) :
  c ≠ "-"%char → strings_Trim (String c r) "-" ≠ "".
Proof.
  intros Hc. apply Ascii.eqb_neq in Hc. unfold strings_Trim. simpl.
  rewrite Hc. simpl. rewrite Hc.
  by destruct (strings_TrimRight r "-").
Qed.

(** Slices of a name at an index of its label. *)
Lemma string_take_app (n : nat) (a b : string) :
  (n ≤ String.length a)%nat → string_take n (a +:+ b) = string_take n a.
Proof.
  revert a. induction n as [|n IH]; intros [|c a] H; simpl in *;
    [by destruct b|done|lia|].
  f_equal. apply IH. lia.
Qed.

Lemma string_drop_app (n : nat) (a b : string) :
  (n ≤ String.length a)%nat → string_drop n (a +:+ b) = string_drop n a +:+ b.
Proof.
  revert a. induction n as [|n IH]; intros [|c a] H; simpl in *;
    [done|done|lia|].
  apply IH. lia.
Qed.

Lemma has_char_app c (a b : string) :
  has_char c (a +:+ b) = has_char c a || has_char c b.
Proof. induction a as [|x a IH]; simpl; [done|]. by rewrite IH, orb_assoc. Qed.

Lemma has_char_take c (n : nat) (a : string) :
  has_char c a = false → has_char c (string_take n a) = false.
Proof.
  revert a. induction n as [|n IH]; intros [|x a]; simpl; try done.
  intros [Hx Ha]%orb_false_iff. by rewrite Hx, IH.
Qed.

Lemma has_char_drop c (n : nat) (a : string) :
  has_char c a = false → has_char c (string_drop n a) = false.
Proof.
  revert a. induction n as [|n IH]; intros [|x a]; simpl; try done.
  intros [Hx Ha]%orb_false_iff. by apply IH.
Qed.

Lemma has_char_Itoa (i : nat) : (i < 10)%nat → has_char "." (strconv_Itoa i) = false.
Proof. intros H. do 10 (destruct i as [|i]; [reflexivity|]). lia. Qed.

Lemma strings_IndexFunc_bound (s : string) f :
  -1 ≤ strings_IndexFunc s f < Z.of_nat (String.length s).
Proof.
  induction s as [|c s IH]; simpl; [lia|].
  destruct (f c); [lia|]. destruct (Z.ltb_spec (strings_IndexFunc s f) 0); lia.
Qed.

Lemma strings_LastIndexFunc_bound (s : string) f :
  -1 ≤ strings_LastIndexFunc s f < Z.of_nat (String.length s).
Proof.
  induction s as [|c s IH]; simpl; [lia|].
  destruct (Z.leb_spec 0 (strings_LastIndexFunc s f)); [lia|].
  destruct (f c); lia.
Qed.

(** A name whose label was cut at [i] and got [mid] in between. *)
Lemma slices_of_label (label rest mid : string) (i : Z) :
  0 ≤ i < Z.of_nat (String.length label) →
  slice_to (label +:+ "." +:+ rest) i +:+ mid +:+ slice_from (label +:+ "." +:+ rest) (i + 1)
  = (slice_to label i +:+ mid +:+ slice_from label (i + 1)) +:+ "." +:+ rest.
Proof.
  intros Hi. unfold slice_to, slice_from.
  rewrite string_take_app, string_drop_app by lia. by rewrite !append_assoc.
Qed.

Lemma slices_around_label (label rest : string) (i : Z) :
  0 ≤ i < Z.of_nat (String.length label) →
  slice_to (label +:+ "." +:+ rest) i +:+ slice_from (label +:+ "." +:+ rest) (i + 1)
  = (slice_to label i +:+ slice_from label (i + 1)) +:+ "." +:+ rest.
Proof.
  intros Hi. unfold slice_to, slice_from.
  rewrite string_take_app, string_drop_app by lia. by rewrite !append_assoc.
Qed.

Lemma ends_with_app (p suffix : string) : ends_with (p +:+ suffix) suffix.
Proof. by exists p. Qed.

Lemma ends_with_app3 (a b suffix : string) : ends_with (a +:+ b +:+ suffix) suffix.
Proof. exists (a +:+ b). by rewrite append_assoc. Qed.

Lemma ends_with_app4 (a b c suffix : string) :
  ends_with (a +:+ b +:+ c +:+ suffix) suffix.
Proof. exists (a +:+ b +:+ c). by rewrite !append_assoc. Qed.

(** ** Outcomes, the state monad and loops *)

Lemma outcome_bind_Returned {A B} (a : A) (f : A → outcome B) :
  Returned a ≫= f = f a.
Proof. reflexivity. Qed.

Lemma index_last {A} (l : list A) (d : A) :
  l ≠ [] → index l (length l - 1) = Returned (List.last l d).
Proof.
  intros Hne. unfold index.
  destruct l as [|x l] using rev_ind; [done|].
  rewrite List.last_last, length_app. simpl.
  replace (length l + 1 - 1)%nat with (length l) by lia.
  by rewrite list_lookup_middle.
Qed.

Lemma bind_lift_Returned {A B} (a : A) (f : A → M B) (s : State) :
  (lift (Returned a) ≫= f) s = f a s.
Proof. reflexivity. Qed.

Lemma bind_lift_Panicked {A B} (e : runtime_error) (f : A → M B) (s : State) :
  (lift (Panicked e) ≫= f) s = (s, Panicked e).
Proof. reflexivity. Qed.

Lemma bind_get {B} (f : State → M B) (s : State) : (get ≫= f) s = f s s.
Proof. reflexivity. Qed.

Lemma bind_Prefixes_RLocked {B} (f : gmap string Z → M B) (s : State) :
  (Prefixes_RLocked ≫= f) s = f (Counters (Prefixes s)) s.
Proof. reflexivity. Qed.

Lemma bind_Suffixes_RLocked {B} (f : gmap string Z → M B) (s : State) :
  (Suffixes_RLocked ≫= f) s = f (Counters (Suffixes s)) s.
Proof. reflexivity. Qed.

Lemma bind_Prefixes_Update {B} (w : string) (f : Z → M B) (s : State) :
  (Prefixes_Update w ≫= f) s
  = f (snd (Update (Prefixes s) w)) (fst (Prefixes_Update w s)).
Proof.
  unfold mbind, M_bind, Prefixes_Update. by destruct (Update (Prefixes s) w).
Qed.

Lemma bind_Suffixes_Update {B} (w : string) (f : Z → M B) (s : State) :
  (Suffixes_Update w ≫= f) s
  = f (snd (Update (Suffixes s) w)) (fst (Suffixes_Update w s)).
Proof.
  unfold mbind, M_bind, Suffixes_Update. by destruct (Update (Suffixes s) w).
Qed.

Lemma Prefixes_Update_fst (w : string) (s : State) :
  fst (Prefixes_Update w s)
  = mkState (MinForWordFlip s) (EditDistance s) (fst (Update (Prefixes s) w)) (Suffixes s).
Proof. unfold Prefixes_Update. by destruct (Update (Prefixes s) w). Qed.

Lemma Suffixes_Update_fst (w : string) (s : State) :
  fst (Suffixes_Update w s)
  = mkState (MinForWordFlip s) (EditDistance s) (Prefixes s) (fst (Update (Suffixes s) w)).
Proof. unfold Suffixes_Update. by destruct (Update (Suffixes s) w). Qed.

(** A loop that has panicked stays so; a loop whose body cannot panic
    returns. *)
Lemma foldl_bind_Panicked {A B} (body : A → B → outcome B) (l : list A) e :
  foldl (fun acc x => acc ≫= body x) (Panicked e) l = Panicked e.
Proof. by induction l. Qed.

Lemma range_list_returns {A B} (l : list A) (body : A → B → outcome B) (init : B) :
  (∀ x acc, ∃ r, body x acc = Returned r) →
  ∃ r, range_list l body init = Returned r.
Proof.
  intros Hbody. unfold range_list. revert init.
  induction l as [|x l IH]; intros init; simpl; [by eexists|].
  destruct (Hbody x init) as [r ->]. apply IH.
Qed.

Lemma range_int_returns {B} (from n : nat) (body : nat → B → outcome B) (init : B) :
  (∀ i acc, ∃ r, body i acc = Returned r) →
  ∃ r, range_int from n body init = Returned r.
Proof. intros Hbody. by apply (range_list_returns (seq from n)). Qed.

Lemma range_map_returns {B} (m : gmap string Z)
    (body : string → Z → B → outcome B) (init : B) :
  (∀ k c acc, ∃ r, body k c acc = Returned r) →
  ∃ r, range_map m body init = Returned r.
Proof.
  intros Hbody. unfold range_map.
  apply (map_fold_weak_ind (fun (b : outcome B) (_ : gmap string Z) =>
    ∃ r, b = Returned r)); [by eexists|].
  intros k c m' b _ [r ->]. simpl. apply Hbody.
Qed.

(** What every returning step of the body keeps true of the accumulator is
    true of what the loop returns. *)
Lemma range_list_invariant {A B} (P : B → Prop) (l : list A)
    (body : A → B → outcome B) (init : B) :
  P init →
  (∀ x acc r, x ∈ l → P acc → body x acc = Returned r → P r) →
  ∀ r, range_list l body init = Returned r → P r.
Proof.
  unfold range_list. revert init.
  induction l as [|x l IH]; intros init Hinit Hbody r; simpl.
  - by intros [= <-].
  - destruct (body x init) as [acc|e] eqn:Hx.
    + apply IH.
      * apply (Hbody x init acc); [by left|done|done].
      * intros y acc' r' Hy. apply Hbody. by right.
    + by rewrite foldl_bind_Panicked.
Qed.

Lemma range_int_invariant {B} (P : B → Prop) (from n : nat)
    (body : nat → B → outcome B) (init : B) :
  P init →
  (∀ i acc r, (from ≤ i < from + n)%nat → P acc → body i acc = Returned r → P r) →
  ∀ r, range_int from n body init = Returned r → P r.
Proof.
  intros Hinit Hbody. apply (range_list_invariant P (seq from n)); [done|].
  intros i acc r Hi. apply Hbody. by apply elem_of_seq in Hi.
Qed.

Lemma range_map_invariant {B} (P : B → Prop) (m : gmap string Z)
    (body : string → Z → B → outcome B) (init : B) :
  P init →
  (∀ k c acc r, m !! k = Some c → P acc → body k c acc = Returned r → P r) →
  ∀ r, range_map m body init = Returned r → P r.
Proof.
  intros Hinit Hbody. unfold range_map. revert Hbody.
  apply (map_fold_weak_ind (fun (b : outcome B) (m : gmap string Z) =>
    (∀ k c acc r, m !! k = Some c → P acc → body k c acc = Returned r → P r) →
    ∀ r, b = Returned r → P r)).
  - by intros _ r [= <-].
  - intros k c m' b Hk IH Hbody r Hr.
    destruct b as [acc|e]; [|done]. simpl in Hr.
    apply (Hbody k c acc r); [by rewrite lookup_insert_eq| |done].
    apply IH; [|done]. intros k' c' acc' r' Hk'. apply Hbody.
    rewrite lookup_insert_ne; [done|]. intros ->. congruence.
Qed.

(** The loop of [FlipWords] over a cache: it inserts [f k] for every word [k]
    whose count reaches the threshold, and nothing else. *)
Lemma range_map_Insert (counters : gmap string Z) (min : Z) (f : string → string)
    (init : gset string) :
  ∃ X, range_map counters (fun k count acc =>
         if min <=? count then Returned (stringset_Insert acc (f k))
         else Returned acc) init = Returned X ∧
       ∀ x, x ∈ X ↔ x ∈ init ∨ ∃ k count, counters !! k = Some count ∧ min ≤ count ∧ x = f k.
Proof.
  unfold range_map.
  apply (map_fold_weak_ind (fun (b : outcome (gset string)) (m : gmap string Z) =>
    ∃ X, b = Returned X ∧
      ∀ x, x ∈ X ↔ x ∈ init ∨ ∃ k count, m !! k = Some count ∧ min ≤ count ∧ x = f k)).
  - exists init. split; [done|]. intros x. split; [by left|].
    intros [H|(k & count & H & _)]; [done|]. by rewrite lookup_empty in H.
  - intros k count m r Hk (X & -> & HX). simpl.
    destruct (min <=? count) eqn:Hmin.
    + eexists. split; [done|]. intros x. unfold stringset_Insert.
      rewrite elem_of_union, elem_of_singleton, HX. apply Z.leb_le in Hmin.
      split.
      * intros [->|[H|(k' & c' & H1 & H2 & H3)]]; [right|by left|right].
        -- exists k, count. by rewrite lookup_insert_eq.
        -- exists k', c'. rewrite lookup_insert_ne; [done|]. intros ->. congruence.
      * intros [H|(k' & c' & H1 & H2 & H3)]; [by right; left|].
        destruct (decide (k = k')) as [->|Hne].
        -- left. done.
        -- right. right. exists k', c'. by rewrite lookup_insert_ne in H1.
    + exists X. split; [done|]. intros x. rewrite HX. apply Z.leb_gt in Hmin.
      split.
      * intros [H|(k' & c' & H1 & H2 & H3)]; [by left|right].
        exists k', c'. rewrite lookup_insert_ne; [done|]. intros ->. congruence.
      * intros [H|(k' & c' & H1 & H2 & H3)]; [by left|].
        destruct (decide (k = k')) as [->|Hne].
        -- rewrite lookup_insert_eq in H1. simplify_eq. lia.
        -- right. exists k', c'. by rewrite lookup_insert_ne in H1.
Qed.

(** A loop whose body panics on the words that reach the threshold, and on
    the candidates that do not trim to nothing. *)
Lemma range_map_crash (m : gmap string Z) (min : Z) (e : runtime_error)
    (init : gset string) :
  let r := range_map m (fun _ count newNames =>
    if min <=? count then Panicked e else Returned newNames) init in
  ((∃ w n, m !! w = Some n ∧ min ≤ n) → r = Panicked e) ∧
  ((∀ w n, m !! w = Some n → n < min) → r = Returned init).
Proof.
  cut (let r := range_map m (fun _ count newNames =>
         if min <=? count then Panicked e else Returned newNames) init in
       (r = Panicked e ∧ ∃ w n, m !! w = Some n ∧ min ≤ n) ∨
       (r = Returned init ∧ ∀ w n, m !! w = Some n → n < min)).
  { intros [[-> (w & n & Hw & Hn)]|[-> Hall]]; simpl; split; try done.
    - intros Hall. specialize (Hall w n Hw). lia.
    - intros (w & n & Hw & Hn). specialize (Hall w n Hw). lia. }
  unfold range_map.
  apply (map_fold_weak_ind (fun (b : outcome (gset string)) (m : gmap string Z) =>
    (b = Panicked e ∧ ∃ w n, m !! w = Some n ∧ min ≤ n) ∨
    (b = Returned init ∧ ∀ w n, m !! w = Some n → n < min))).
  - right. split; [done|]. intros w n H. by rewrite lookup_empty in H.
  - intros k c m' b Hk [[-> (w & n & Hw & Hn)]|[-> Hall]]; simpl.
    + left. split; [done|]. exists w, n. rewrite lookup_insert_ne; [done|].
      intros ->. congruence.
    + destruct (Z.leb_spec min c) as [Hle|Hlt].
      * left. split; [done|]. exists k, c. by rewrite lookup_insert_eq.
      * right. split; [done|]. intros w n Hw.
        destruct (decide (k = w)) as [->|Hne].
        -- rewrite lookup_insert_eq in Hw. by simplify_eq.
        -- rewrite lookup_insert_ne in Hw by done. by apply (Hall w).
Qed.

Lemma range_list_crash (l : list string) (e : runtime_error) (init : gset string) :
  let r := range_list l (fun alt newNames =>
    if decide (strings_Trim alt "-" = "") then Returned newNames
    else Panicked e) init in
  ((∃ alt, alt ∈ l ∧ strings_Trim alt "-" ≠ "") → r = Panicked e) ∧
  ((∀ alt, alt ∈ l → strings_Trim alt "-" = "") → r = Returned init).
Proof.
  unfold range_list. induction l as [|x l [IH1 IH2]]; simpl.
  - split; [|done]. intros (alt & H & _). by apply elem_of_nil in H.
  - destruct (decide (strings_Trim x "-" = "")) as [Hx|Hx]; split.
    + intros (alt & [->|H]%elem_of_cons & Hne); [done|]. apply IH1. by exists alt.
    + intros Hall. apply IH2. intros alt H. apply Hall. by right.
    + intros _. apply foldl_bind_Panicked.
    + intros Hall. destruct Hx. apply Hall. by left.
Qed.

(** The string set, as the specification describes it. *)
Lemma elem_of_InsertMany (X : gset string) (l : list string) (x : string) :
  x ∈ stringset_InsertMany X l ↔ x ∈ X ∨ x ∈ l.
Proof.
  unfold stringset_InsertMany. revert X.
  induction l as [|y l IH]; intros X; simpl.
  - rewrite elem_of_nil. tauto.
  - rewrite IH. unfold stringset_Insert.
    rewrite elem_of_cons, elem_of_union, elem_of_singleton. tauto.
Qed.

(** Methods that only read the state. *)
Lemma read_only_ret {A} (a : A) : read_only (mret a).
Proof. by intros s. Qed.

Lemma read_only_lift {A} (o : outcome A) : read_only (lift o).
Proof. by intros s. Qed.

Lemma read_only_get : read_only get.
Proof. by intros s. Qed.

Lemma read_only_bind {A B} (m : M A) (f : A → M B) :
  read_only m → (∀ a, read_only (f a)) → read_only (m ≫= f).
Proof.
  intros Hm Hf s. unfold mbind, M_bind. specialize (Hm s).
  destruct (m s) as [s' [a|e]]; simpl in *; subst; [apply Hf|done].
Qed.

Lemma read_only_if {A} (b : bool) (m1 m2 : M A) :
  read_only m1 → read_only m2 → read_only (if b then m1 else m2).
Proof. by destruct b. Qed.

Lemma read_only_decide {A} (P : Prop) `{Decision P} (m1 m2 : M A) :
  read_only m1 → read_only m2 → read_only (if decide P then m1 else m2).
Proof. by destruct (decide P). Qed.

Lemma read_only_Prefixes_RLocked : read_only Prefixes_RLocked.
Proof. by intros s. Qed.

Lemma read_only_Suffixes_RLocked : read_only Suffixes_RLocked.
Proof. by intros s. Qed.

(** ** The frequency cache *)

(** The increment of an [int] below the largest one does not wrap. *)
Lemma int_wrap_in_range (z : Z) : min_int ≤ z ≤ max_int → int_wrap z = z.
Proof.
  unfold int_wrap, min_int, max_int, int_bits. intros H.
  rewrite Z.mod_small; lia.
Qed.

Lemma int_wrap_overflow : int_wrap (max_int + 1) = min_int.
Proof. reflexivity. Qed.

(** [Update] on an absent and on a present word. *)
Lemma Update_absent (c : Cache) (w : string) :
  Counters c !! w = None →
  Update c w = (mkCache (<[w := 1]> (Counters c)), 1).
Proof. intros H. unfold Update. rewrite H. by rewrite lookup_insert_eq. Qed.

Lemma Update_present (c : Cache) (w : string) (n : Z) :
  Counters c !! w = Some n →
  Update c w = (mkCache (<[w := int_wrap (n + 1)]> (Counters c)), int_wrap (n + 1)).
Proof. intros H. unfold Update. rewrite H. by rewrite lookup_insert_eq. Qed.

Lemma Update_other (c : Cache) (w w' : string) :
  w ≠ w' → Counters (fst (Update c w)) !! w' = Counters c !! w'.
Proof.
  intros Hne. unfold Update.
  destruct (Counters c !! w); simpl; by rewrite lookup_insert_ne.
Qed.

Lemma Update_count (c : Cache) (w : string) :
  Counters (fst (Update c w)) !! w = Some (snd (Update c w)).
Proof.
  unfold Update. destruct (Counters c !! w); simpl; by rewrite !lookup_insert_eq.
Qed.

Lemma Update_dom (c : Cache) (w : string) :
  dom (Counters (fst (Update c w))) = {[ w ]} ∪ dom (Counters c).
Proof.
  unfold Update. destruct (Counters c !! w); simpl; by rewrite dom_insert_L.
Qed.

Lemma NewCache_lookup (seed : list string) (w : string) :
  Counters (NewCache seed) !! w = None ∨ Counters (NewCache seed) !! w = Some 0.
Proof.
  unfold NewCache. simpl.
  assert (∀ m : gmap string Z, (m !! w = None ∨ m !! w = Some 0) →
    let m' := foldl (fun m word => <[word := 0]> m) m seed in
    m' !! w = None ∨ m' !! w = Some 0) as H.
  { induction seed as [|x seed IH]; simpl; [done|]. intros m Hm. apply IH.
    destruct (decide (x = w)) as [->|Hne].
    - right. by rewrite lookup_insert_eq.
    - by rewrite lookup_insert_ne. }
  apply H. left. apply lookup_empty.
Qed.

Lemma Updates_succ (n : N) (c : Cache) (w : string) :
  Updates (N.succ n) c w = fst (Update (Updates n c w) w).
Proof. unfold Updates. by rewrite N.iter_succ. Qed.

(** As long as the count stays below the largest [int], [n] updates add [n]. *)
Lemma Updates_count (n : N) (c : Cache) (w : string) (k : Z) :
  Counters c !! w = Some k → 0 ≤ k → k + Z.of_N n ≤ max_int →
  Counters (Updates n c w) !! w = Some (k + Z.of_N n).
Proof.
  intros Hk Hk0. induction n as [|n IH] using N.peano_ind; intros Hle.
  - unfold Updates. simpl. by rewrite Z.add_0_r.
  - rewrite Updates_succ, Update_count.
    rewrite (Update_present _ _ (k + Z.of_N n)) by (apply IH; lia). simpl.
    rewrite int_wrap_in_range by (unfold min_int, int_bits; lia).
    f_equal. lia.
Qed.

(** On a fresh cache the [k]-th update of a word returns [k], for every [k]
    up to the largest [int]. *)
Lemma Updates_fresh_return (seed : list string) (w : string) (k : N) :
  1 ≤ Z.of_N k ≤ max_int →
  snd (Update (Updates (k - 1) (NewCache seed) w) w) = Z.of_N k.
Proof.
  intros Hk.
  assert (Counters (fst (Update (NewCache seed) w)) !! w = Some 1) as H1.
  { rewrite Update_count. f_equal.
    destruct (NewCache_lookup seed w) as [H|H].
    - by rewrite (Update_absent _ _ H).
    - by rewrite (Update_present _ _ _ H). }
  destruct (decide (k = 1%N)) as [->|Hne].
  { change (Updates (1 - 1) (NewCache seed) w) with (NewCache seed).
    rewrite Update_count in H1. change (Z.of_N 1) with 1. congruence. }
  assert (Updates (k - 1) (NewCache seed) w
          = Updates (k - 2) (fst (Update (NewCache seed) w)) w) as ->.
  { unfold Updates. replace (k - 1)%N with (N.succ (k - 2)) by lia.
    by rewrite N.iter_succ_r. }
  rewrite (Update_present _ _ (1 + Z.of_N (k - 2))).
  - simpl. rewrite int_wrap_in_range by (unfold min_int, int_bits; lia). lia.
  - apply Updates_count; [done|lia|lia].
Qed.

#[local] Opaque Updates.

Lemma Update_after_max_int (c : Cache) (w : string) :
  snd (Update c w) = max_int → snd (Update (fst (Update c w)) w) = min_int.
Proof.
  intros Hmax.
  rewrite (Update_present (fst (Update c w)) w max_int).
  - reflexivity.
  - rewrite Update_count. by f_equal.
Qed.

(** On a fresh cache the update number [2^63 - 1] of a word returns the
    largest [int], and the update after it returns the least [int]: the
    counter wraps around, and the counts returned do not increase. *)
Lemma Update_wraps_at_max_int :
  snd (Update (Updates (9223372036854775807 - 1) (NewCache []) "w") "w")
  = 9223372036854775807 ∧
  snd (Update
         (fst (Update (Updates (9223372036854775807 - 1) (NewCache []) "w") "w"))
         "w")
  = -9223372036854775808.
Proof.
  assert (1 ≤ Z.of_N 9223372036854775807 ≤ max_int) as Hk
    by (unfold max_int, int_bits; lia).
  pose proof (Updates_fresh_return [] "w" 9223372036854775807 Hk) as Hmax.
  change (Z.of_N 9223372036854775807) with max_int in Hmax.
  generalize dependent (Updates (9223372036854775807 - 1) (NewCache []) "w").
  intros c Hmax. split.
  - exact Hmax.
  - exact (Update_after_max_int c "w" Hmax).
Qed.

(** C8, amended. For every cache and every word: [Update] inserts an absent
    word with count 1 and returns 1; it increments the count of a present
    word, as a Go [int], and returns the new count, which is the count plus
    one when the count is below the largest [int]; it removes no word; it
    does not decrease the count of a word whose count is below the largest
    [int]; and on a fresh cache the [k]-th update of a word returns [k] for
    every [k] from 1 to the largest [int]. *)
Theorem Update_below_max_int
    (seed : list string) (c : Cache) (w w' : string) (n : Z) (k : N) :
  (Counters c !! w = None →
     Update c w = (mkCache (<[w := 1]> (Counters c)), 1)) ∧
  (Counters c !! w = Some n →
     Update c w
     = (mkCache (<[w := int_wrap (n + 1)]> (Counters c)), int_wrap (n + 1)) ∧
     (min_int ≤ n < max_int → int_wrap (n + 1) = n + 1)) ∧
  (Counters c !! w' = Some n → min_int ≤ n < max_int →
     ∃ n', Counters (fst (Update c w)) !! w' = Some n' ∧ n ≤ n') ∧
  dom (Counters c) ⊆ dom (Counters (fst (Update c w))) ∧
  (1 ≤ Z.of_N k ≤ max_int →
     snd (Update (Updates (k - 1) (NewCache seed) w) w) = Z.of_N k).
Proof.
  split; [apply Update_absent|].
  split.
  { intros Hn. split; [by apply Update_present|].
    intros Hrange. apply int_wrap_in_range. lia. }
  split.
  { intros Hn Hrange. destruct (decide (w = w')) as [->|Hne].
    - exists (n + 1). rewrite (Update_present _ _ _ Hn).
      rewrite int_wrap_in_range by lia. simpl.
      rewrite lookup_insert_eq. split; [done|lia].
    - exists n. rewrite (Update_other _ _ _ Hne). split; [done|lia]. }
  split.
  { rewrite Update_dom. apply union_subseteq_r. }
  apply Updates_fresh_return.
Qed.

Lemma Update_below_max_int_witness :
  Update (NewCache []) "www"
  = (mkCache (<[ "www" := 1]> (Counters (NewCache []))), 1) ∧
  Update (mkCache {[ "www" := 3 ]}) "www"
  = (mkCache (<[ "www" := 3 + 1]> (Counters (mkCache {[ "www" := 3 ]}))), 3 + 1) ∧
  (∃ n', Counters (fst (Update (mkCache {[ "www" := 3 ]}) "api")) !! "www" = Some n'
         ∧ 3 ≤ n') ∧
  dom (Counters (NewCache [])) ⊆ dom (Counters (fst (Update (NewCache []) "www"))) ∧
  snd (Update (Updates (2 - 1) (NewCache ["api"]) "www") "www") = Z.of_N 2.
Proof.
  assert (Counters (mkCache {[ "www" := 3 ]}) !! "www" = Some 3) as H1
    by reflexivity.
  assert (min_int ≤ 3 < max_int) as H2 by (unfold min_int, max_int, int_bits; lia).
  assert (1 ≤ Z.of_N 2 ≤ max_int) as H3 by (unfold max_int, int_bits; lia).
  destruct (Update_below_max_int ["api"] (NewCache []) "www" "www" 3 2)
    as (Habsent & _ & _ & Hdom & Hfresh).
  destruct (Update_below_max_int ["api"] (mkCache {[ "www" := 3 ]}) "www" "www" 3 2)
    as (_ & Hpresent & _ & _ & _).
  destruct (Update_below_max_int ["api"] (mkCache {[ "www" := 3 ]}) "api" "www" 3 2)
    as (_ & _ & Hother & _ & _).
  destruct (Hpresent H1) as [Hupdate Hwrap].
  split; [exact (Habsent eq_refl)|].
  split; [rewrite <- (Hwrap H2); exact Hupdate|].
  split; [exact (Hother H1 H2)|].
  split; [exact Hdom|exact (Hfresh H3)].
Defined.

(** A word that can be counted once more has a count of at least 1 after
    the update. *)
Lemma countable_word_Update (c : Cache) (w : string) :
  countable_word c w → 1 ≤ snd (Update c w).
Proof.
  unfold countable_word. destruct (Counters c !! w) as [n|] eqn:Hw; intros H.
  - rewrite (Update_present _ _ _ Hw). simpl.
    rewrite int_wrap_in_range; unfold min_int, int_bits; lia.
  - by rewrite (Update_absent _ _ Hw).
Qed.

(** ** Word flips *)

(** Without a hyphen in the label the split has one part, and [FlipWords]
    returns before it updates a cache. *)
Lemma FlipWords_returns_early (s : State) (label rest : string) :
  has_char "." label = false →
  has_char "-" label = false →
  FlipWords (label +:+ "." +:+ rest) s = (s, Returned ∅).
Proof.
  intros Hdot Hhyphen. unfold FlipWords.
  change ("." +:+ rest) with (String "." rest).
  rewrite (strings_SplitN2_app "." label rest Hdot).
  cbn [index lookup list_lookup]. simpl.
  unfold mbind, M_bind, lift. simpl.
  by rewrite (strings_Split_none "-" label Hhyphen).
Qed.

(** C10. On a name [label.rest] whose label has no hyphen, [FlipWords] returns
    the empty set and leaves the state, both caches included, as it was: the
    return comes before the first [Update]. *)
Theorem FlipWords_no_hyphen (s : State) (label rest : string) :
  has_char "." label = false →
  has_char "-" label = false →
  FlipWords (label +:+ "." +:+ rest) s = (s, Returned ∅) ∧
  Counters (Prefixes (fst (FlipWords (label +:+ "." +:+ rest) s)))
    = Counters (Prefixes s) ∧
  Counters (Suffixes (fst (FlipWords (label +:+ "." +:+ rest) s)))
    = Counters (Suffixes s).
Proof.
  intros Hdot Hhyphen.
  by rewrite (FlipWords_returns_early s label rest Hdot Hhyphen).
Qed.

Lemma FlipWords_no_hyphen_witness :
  (has_char "." "host" = false ∧ has_char "-" "host" = false) ∧
  FlipWords ("host" +:+ "." +:+ "example.com") (NewState ["www"])
  = (NewState ["www"], Returned ∅).
Proof.
  split; [by split|].
  exact (proj1 (FlipWords_no_hyphen (NewState ["www"]) "host" "example.com"
                  eq_refl eq_refl)).
Defined.

(** What [FlipWords] returns on a label with a hyphen: the state after the
    two updates, and the flips of the first part by the prefixes, and of the
    last part by the suffixes, that reach the threshold. *)
Lemma FlipWords_spec (s : State) (label rest : string) :
  has_char "." label = false →
  has_char "-" label = true →
  let parts := strings_Split label "-" in
  let s1 := fst (Prefixes_Update (hd "" parts) s) in
  let s2 := fst (Suffixes_Update (List.last parts "") s1) in
  ∃ X, FlipWords (label +:+ "." +:+ rest) s = (s2, Returned X) ∧
    ∀ x, x ∈ X ↔
      (∃ k c, Counters (Prefixes s2) !! k = Some c ∧ MinForWordFlip s ≤ c ∧
         x = k +:+ "-" +:+ strings_Join (drop 1 parts) "-" +:+ "." +:+ rest) ∨
      (∃ k c, Counters (Suffixes s2) !! k = Some c ∧ MinForWordFlip s ≤ c ∧
         x = strings_Join (take (length parts - 1) parts) "-" +:+ "-" +:+ k +:+ "." +:+ rest).
Proof.
  intros Hdot Hhyphen parts s1 s2. unfold FlipWords.
  change ("." +:+ rest) with (String "." rest).
  rewrite (strings_SplitN2_app "." label rest Hdot).
  pose proof (strings_Split_some "-" label Hhyphen) as Hlen.
  fold parts in Hlen |- *.
  unfold mbind at 1 2. cbn [index lookup list_lookup lift M_bind].
  fold parts.
  destruct (Nat.ltb_spec (length parts) 2) as [?|_]; [lia|].
  assert (parts ≠ []) as Hne by (intros E; rewrite E in Hlen; simpl in Hlen; lia).
  assert (index parts 0 = Returned (hd "" parts)) as -> by (by destruct parts).
  rewrite bind_lift_Returned, bind_Prefixes_Update, bind_get, bind_Prefixes_RLocked.
  fold s1.
  match goal with |- context [range_map ?c ?b ?i] =>
    destruct (range_map_Insert c (MinForWordFlip s1)
      (fun k => k +:+ "-" +:+ strings_Join (drop 1 parts) "-" +:+ "." +:+ rest) i)
      as (X1 & -> & HX1) end.
  rewrite bind_lift_Returned, (index_last parts "" Hne), bind_lift_Returned.
  rewrite bind_Suffixes_Update, bind_get, bind_Suffixes_RLocked.
  fold s2.
  match goal with |- context [range_map ?c ?b ?i] =>
    destruct (range_map_Insert c (MinForWordFlip s2)
      (fun k => strings_Join (take (length parts - 1) parts) "-" +:+ "-" +:+ k
                  +:+ "." +:+ rest) i)
      as (X2 & -> & HX2) end.
  rewrite bind_lift_Returned.
  exists X2. split; [done|]. intros x. rewrite HX2, HX1.
  unfold s2, s1. rewrite !Suffixes_Update_fst, !Prefixes_Update_fst. simpl.
  unfold stringset_New. rewrite elem_of_empty. tauto.
Qed.

(** The state with a count at the largest [int] for both parts of the label:
    both updates wrap around, no word reaches the threshold, and the set of
    flips is empty. *)
Lemma FlipWords_self_inclusion_fails_at_max_int :
  snd (FlipWords "abc-def.example.com"
         (mkState 1 0 (mkCache {[ "abc" := max_int ]}) (mkCache {[ "def" := max_int ]})))
  = Returned ∅.
Proof. vm_compute. reflexivity. Qed.

(** C6, amended. For every state with [MinForWordFlip <= 1] and every name
    [label.rest] whose label has a hyphen, the set that [FlipWords] returns
    contains the name itself, provided the first part of the label can be
    counted once more in [Prefixes], or the last part in [Suffixes]: the word
    is new there, or its count is at least 0 and below the largest [int]. *)
Theorem FlipWords_self_inclusion (s : State) (label rest : string) :
  MinForWordFlip s ≤ 1 →
  has_char "." label = false →
  has_char "-" label = true →
  countable_word (Prefixes s) (hd "" (strings_Split label "-")) ∨
  countable_word (Suffixes s) (List.last (strings_Split label "-") "") →
  ∃ names, snd (FlipWords (label +:+ "." +:+ rest) s) = Returned names ∧
           label +:+ "." +:+ rest ∈ names.
Proof.
  intros Hmin Hdot Hhyphen Hcount.
  destruct (FlipWords_spec s label rest Hdot Hhyphen) as (X & HX & Hin).
  exists X. rewrite HX. split; [done|]. apply Hin. clear HX Hin.
  pose proof (strings_Split_some "-" label Hhyphen) as Hlen.
  pose proof (strings_Join_Split label "-") as Hjoin.
  rewrite Suffixes_Update_fst, Prefixes_Update_fst. simpl.
  destruct Hcount as [Hc|Hc]; apply countable_word_Update in Hc.
  - left. eexists _, _. split; [apply Update_count|]. split; [lia|].
    destruct (strings_Split label "-") as [|p ps]; [simpl in Hlen; lia|].
    rewrite strings_Join_cons in Hjoin
      by (intros ->; simpl in Hlen; lia).
    simpl. rewrite <- Hjoin at 1. by rewrite !append_assoc.
  - right. eexists _, _. split; [apply Update_count|]. split; [lia|].
    destruct (strings_Split label "-") as [|q l _] using rev_ind;
      [simpl in Hlen; lia|].
    rewrite length_app in Hlen |- *. simpl in Hlen |- *.
    replace (length l + 1 - 1)%nat with (length l) by lia.
    rewrite take_app_length, List.last_last.
    rewrite strings_Join_snoc in Hjoin by (intros ->; simpl in Hlen; lia).
    rewrite <- Hjoin at 1. by rewrite !append_assoc.
Qed.

Lemma FlipWords_self_inclusion_witness :
  (MinForWordFlip (NewState ["www"]) ≤ 1 ∧
   has_char "." "abc-def" = false ∧
   has_char "-" "abc-def" = true ∧
   (countable_word (Prefixes (NewState ["www"])) (hd "" (strings_Split "abc-def" "-")) ∨
    countable_word (Suffixes (NewState ["www"]))
      (List.last (strings_Split "abc-def" "-") ""))) ∧
  ∃ names, snd (FlipWords ("abc-def" +:+ "." +:+ "example.com") (NewState ["www"]))
           = Returned names ∧
           "abc-def" +:+ "." +:+ "example.com" ∈ names.
Proof.
  assert (MinForWordFlip (NewState ["www"]) ≤ 1) as H1 by (simpl; lia).
  assert (has_char "." "abc-def" = false) as H2 by reflexivity.
  assert (has_char "-" "abc-def" = true) as H3 by reflexivity.
  assert (countable_word (Prefixes (NewState ["www"]))
            (hd "" (strings_Split "abc-def" "-")) ∨
          countable_word (Suffixes (NewState ["www"]))
            (List.last (strings_Split "abc-def" "-") "")) as H4
    by (left; exact I).
  split; [done|].
  exact (FlipWords_self_inclusion (NewState ["www"]) "abc-def" "example.com"
           H1 H2 H3 H4).
Defined.

(** ** Number flips *)

(** C5. [FlipNumbers("host1.example.com")] returns eleven names: the label
    [host] followed by each of the ten digits, and the label [host] alone,
    each before [.example.com]. The state is not touched. *)
Theorem FlipNumbers_host1 (s : State) :
  FlipNumbers "host1.example.com" s
  = (s, Returned {[ "host0.example.com"; "host1.example.com"; "host2.example.com";
                    "host3.example.com"; "host4.example.com"; "host5.example.com";
                    "host6.example.com"; "host7.example.com"; "host8.example.com";
                    "host9.example.com"; "host.example.com" ]}) ∧
  size ({[ "host0.example.com"; "host1.example.com"; "host2.example.com";
           "host3.example.com"; "host4.example.com"; "host5.example.com";
           "host6.example.com"; "host7.example.com"; "host8.example.com";
           "host9.example.com"; "host.example.com" ]} : gset string) = 11%nat.
Proof. split; vm_compute; reflexivity. Qed.

(** The number flips never read the tail: they return on every name. *)
Lemma secondNumberFlip_returns (name : string) (minIndex : Z) :
  ∃ l, secondNumberFlip name minIndex = Returned l.
Proof.
  unfold secondNumberFlip. destruct (index_SplitN2_0 name ".") as [p ->].
  rewrite outcome_bind_Returned.
  destruct (_ || _); [by eexists|].
  match goal with |- context [range_int ?a ?b ?f ?i] =>
    destruct (range_int_returns a b f i) as [r ->] end; [by eexists|].
  by eexists.
Qed.

Lemma FlipNumbers_returns (name : string) (s : State) :
  ∃ names, FlipNumbers name s = (s, Returned names).
Proof.
  unfold FlipNumbers. destruct (index_SplitN2_0 name ".") as [p ->].
  rewrite bind_lift_Returned.
  destruct (_ <? 0); [by eexists|].
  match goal with |- context [range_int ?a ?b ?f ?i] =>
    destruct (range_int_returns a b f i) as [r ->] end.
  { intros i acc. destruct (secondNumberFlip_returns
      (slice_to name (strings_IndexFunc p unicode_IsNumber) +:+ strconv_Itoa i +:+
       slice_from name (strings_IndexFunc p unicode_IsNumber + 1))
      (strings_IndexFunc p unicode_IsNumber + 1)) as [l ->]. by eexists. }
  rewrite bind_lift_Returned.
  match goal with |- context [secondNumberFlip ?a ?b] =>
    destruct (secondNumberFlip_returns a b) as [l ->] end.
  by eexists.
Qed.

(** ** Appended words *)

Create HintDb read_only.

#[local] Hint Resolve read_only_ret read_only_lift read_only_get read_only_bind
  read_only_if read_only_decide read_only_Prefixes_RLocked
  read_only_Suffixes_RLocked : read_only.

Lemma read_only_AddSuffixWord name : read_only (AddSuffixWord name).
Proof. unfold AddSuffixWord. repeat (intros; auto 10 with read_only). Qed.

Lemma read_only_AddPrefixWord name : read_only (AddPrefixWord name).
Proof. unfold AddPrefixWord. repeat (intros; auto 10 with read_only). Qed.

Lemma read_only_FlipNumbers name : read_only (FlipNumbers name).
Proof. unfold FlipNumbers. repeat (intros; auto 10 with read_only). Qed.

Lemma read_only_AppendNumbers name : read_only (AppendNumbers name).
Proof. unfold AppendNumbers. repeat (intros; auto 10 with read_only). Qed.

Lemma read_only_FuzzyLabelSearches runecap name :
  read_only (FuzzyLabelSearches runecap name).
Proof. unfold FuzzyLabelSearches. repeat (intros; auto 10 with read_only). Qed.

(** C9. [AddSuffixWord] and [AddPrefixWord] only read the caches: for every
    state and every name, also one on which the call panics, the counters of
    [Prefixes] and those of [Suffixes] are after the call what they were
    before it. *)
Theorem AddWord_caches_unchanged (s : State) (name : string) :
  Counters (Prefixes (fst (AddSuffixWord name s))) = Counters (Prefixes s) ∧
  Counters (Suffixes (fst (AddSuffixWord name s))) = Counters (Suffixes s) ∧
  Counters (Prefixes (fst (AddPrefixWord name s))) = Counters (Prefixes s) ∧
  Counters (Suffixes (fst (AddPrefixWord name s))) = Counters (Suffixes s).
Proof.
  by rewrite (read_only_AddSuffixWord name s), (read_only_AddPrefixWord name s).
Qed.

Lemma AddPrefixWord_returns (name : string) (s : State) :
  ∃ names, AddPrefixWord name s = (s, Returned names).
Proof.
  unfold AddPrefixWord. rewrite bind_Prefixes_RLocked.
  destruct (decide (_ = "")); [by eexists|].
  rewrite bind_get.
  match goal with |- context [range_map ?m ?f ?i] =>
    destruct (range_map_returns m f i) as [r ->] end; [|by eexists].
  intros k c acc. destruct (_ <=? _); by eexists.
Qed.

(** [AddSuffixWord] does return the empty set when the label of the name
    trims to nothing. *)
Lemma AddSuffixWord_hyphen_label (s : State) (label rest : string) :
  has_char "." label = false →
  strings_Trim label "-" = "" →
  AddSuffixWord (label +:+ "." +:+ rest) s = (s, Returned ∅).
Proof.
  intros Hdot Htrim. unfold AddSuffixWord.
  change ("." +:+ rest) with (String "." rest).
  rewrite (strings_SplitN2_app "." label rest Hdot).
  rewrite bind_Suffixes_RLocked.
  cbn [index lookup list_lookup insert list_insert]. rewrite !bind_lift_Returned.
  by rewrite decide_True.
Qed.

(** C4, at the name [--.example.com] with the word [www] in the cache.
    [AddPrefixWord] trims the whole name, not the label: what is left,
    [.example.com], is not empty, and the word is put before it. *)
Theorem AddPrefixWord_hyphen_label :
  snd (AddPrefixWord "--.example.com" (NewState ["www"]))
  = Returned {[ "www.example.com"; "www-.example.com" ]}.
Proof. vm_compute. reflexivity. Qed.

(** ** Edits of a label *)

Lemma ldhChars_length : length (runes ldhChars) = 37%nat.
Proof. reflexivity. Qed.

(** What the loop over the symbols emits for position [i] of the array [t],
    and what it leaves in the array. *)
Lemma substitutions_symbols (i : nat) (ldh t : list ascii) (res : list string) :
  foldl (substitutions_symbol i) (t, res) ldh
  = (foldl (fun t c => <[i := c]> t) t ldh,
     res ++ List.map (fun c => string_of_runes (<[i := c]> t)) ldh).
Proof.
  revert t res. induction ldh as [|c ldh IH]; intros t res; simpl.
  - by rewrite app_nil_r.
  - rewrite IH. f_equal. rewrite <- app_assoc. simpl. do 2 f_equal.
    apply List.map_ext. intros c'. by rewrite list_insert_insert_eq.
Qed.

Lemma last_symbol_stays (i : nat) (ldh t : list ascii) (z : ascii) :
  foldl (fun t c => <[i := c]> t) t (ldh ++ [z]) = <[i := z]> t.
Proof.
  rewrite foldl_app. simpl. generalize t. induction ldh as [|c ldh IH]; intros t'.
  - done.
  - simpl. rewrite IH. apply list_insert_insert_eq.
Qed.

(** The loop over the positions, started at position [a] on an array whose
    first [a] cells hold the last symbol [z] of the alphabet. *)
Lemma substitutions_positions (ldh : list ascii) (z : ascii) (rstr : list ascii)
    (n a : nat) (res : list string) :
  (a + n = length rstr)%nat →
  foldl (substitutions_position (ldh ++ [z]))
    (replicate a z ++ drop a rstr, res) (seq a n)
  = (replicate (length rstr) z,
     res ++ flat_map (fun i =>
              List.map (fun c => string_of_runes (replicate i z ++ c :: drop (S i) rstr))
                (ldh ++ [z])) (seq a n)).
Proof.
  revert a res. induction n as [|n IH]; intros a res Hlen; simpl.
  - rewrite app_nil_r, drop_ge by lia. rewrite app_nil_r. do 2 f_equal. lia.
  - destruct (drop a rstr) as [|x rest] eqn:Hdrop.
    { apply (f_equal length) in Hdrop. rewrite length_drop in Hdrop.
      simpl in Hdrop. lia. }
    assert (drop (S a) rstr = rest) as Hrest.
    { by rewrite <- Nat.add_1_r, <- drop_drop, Hdrop. }
    assert (∀ c, <[a := c]> (replicate a z ++ x :: rest) = replicate a z ++ c :: rest)
      as Hins.
    { intros c. rewrite insert_app_r_alt by (rewrite length_replicate; lia).
      rewrite length_replicate, Nat.sub_diag. done. }
    unfold substitutions_position at 2. rewrite substitutions_symbols.
    rewrite last_symbol_stays, Hins.
    replace (replicate a z ++ z :: rest) with (replicate (S a) z ++ drop (S a) rstr)
      by (rewrite Hrest, replicate_S_end, <- app_assoc; done).
    rewrite IH by lia. f_equal. rewrite <- app_assoc. do 2 f_equal.
    rewrite Hrest. apply List.map_ext. intros c. by rewrite Hins.
Qed.

(** The substitutions of one candidate, as the code emits them: the variant
    for position [i] and symbol [c] has [c] at position [i], the characters of
    the candidate behind it, and hyphens, the last symbol of the alphabet,
    before it. *)
Lemma substitutions_one_candidate (str : string) :
  substitutions [str]
  = flat_map (fun i =>
      List.map (fun c =>
        string_of_runes (replicate i "-"%char ++ c :: drop (S i) (runes str)))
        (runes ldhChars)) (seq 0 (length (runes str))).
Proof.
  unfold substitutions. cbn [foldl]. unfold substitutions_string.
  change (runes ldhChars)
    with (runes "abcdefghijklmnopqrstuvwxyz0123456789" ++ ["-"%char]).
  pose proof (substitutions_positions (runes "abcdefghijklmnopqrstuvwxyz0123456789")
    "-" (runes str) (length (runes str)) 0 [] eq_refl) as H.
  cbn [replicate app] in H. rewrite drop_0 in H. by rewrite H.
Qed.

(** C1, at the candidate [ab]. The variants of position 0 are the 37 strings
    [cb]. Those of position 1 are the 37 strings [-c] and not [ac]: position 0
    still holds the last symbol written there, the hyphen, because [temp] and
    [rstr] are one array. The variant [aa] of the claim is not emitted. *)
Theorem substitutions_ab :
  substitutions ["ab"]
  = (List.map (fun c => String c "b") (runes ldhChars)
     ++ List.map (fun c => String "-" (String c "")) (runes ldhChars)) ∧
  ("aa" ∉ substitutions ["ab"]) ∧
  "-a" ∈ substitutions ["ab"].
Proof.
  split; [reflexivity|]. split.
  - apply (bool_decide_unpack _). vm_compute. reflexivity.
  - apply (bool_decide_unpack _). vm_compute. reflexivity.
Qed.

(** C3, at the candidate [ab]. [append(rstr[:i], rstr[i+1:]...)] writes into
    the array of [rstr]: after the deletion at position 0 the array holds
    [bb], and the deletion at position 1 gives [b] again. The deletion [a] of
    the claim is not emitted. *)
Theorem deletions_ab :
  deletions ["ab"] = ["b"; "b"] ∧ "a" ∉ deletions ["ab"].
Proof.
  split; [reflexivity|]. apply (bool_decide_unpack _). vm_compute. reflexivity.
Qed.

(** The same on three characters: every deletion gives [bc]. *)
Lemma deletions_abc : deletions ["abc"] = ["bc"; "bc"; "bc"].
Proof. reflexivity. Qed.

(** The loops of the edits only append to [results]. *)
Lemma foldl_snd_prefix {St X} (f : St * list string → X → St * list string)
    (l : list X) :
  (∀ a x, snd a `prefix_of` snd (f a x)) →
  ∀ a, snd a `prefix_of` snd (foldl f a l).
Proof.
  intros Hf. induction l as [|x l IH]; intros a; simpl; [done|].
  etrans; [apply (Hf a x)|apply IH].
Qed.

Lemma foldl_prefix {X} (f : list string → X → list string) (l : list X) :
  (∀ a x, a `prefix_of` f a x) → ∀ a, a `prefix_of` foldl f a l.
Proof.
  intros Hf. induction l as [|x l IH]; intros a; simpl; [done|].
  etrans; [apply (Hf a x)|apply IH].
Qed.

Lemma additions_symbol_prefix shared ldh0 rlen i a c :
  snd a `prefix_of` snd (additions_symbol shared ldh0 rlen i a c).
Proof. destruct a as [rstr results]. simpl. by apply prefix_app_r. Qed.

Lemma additions_position_prefix shared ldh rlen a i :
  snd a `prefix_of` snd (additions_position shared ldh rlen a i).
Proof. apply foldl_snd_prefix. intros. apply additions_symbol_prefix. Qed.

Lemma additions_string_prefix runecap ldh results str :
  results `prefix_of` additions_string runecap ldh results str.
Proof.
  unfold additions_string.
  apply (foldl_snd_prefix _ _ (additions_position_prefix _ _ _) (_, results)).
Qed.

(** The variants that the substitutions have emitted stay as they are: each
    step copies the array into a new string behind the earlier ones. *)
Lemma substitutions_symbol_prefix i a c :
  snd a `prefix_of` snd (substitutions_symbol i a c).
Proof. destruct a as [temp results]. simpl. by apply prefix_app_r. Qed.

Lemma substitutions_string_prefix ldh results str :
  results `prefix_of` substitutions_string ldh results str.
Proof.
  unfold substitutions_string.
  apply (foldl_snd_prefix (substitutions_position ldh) _) with (a := (runes str, results)).
  intros a i. apply foldl_snd_prefix. intros. apply substitutions_symbol_prefix.
Qed.

(** The first addition to the first candidate starts with the first symbol of
    the alphabet, whatever the array holds. *)
Lemma additions_first runecap (str : string) (set : list string) :
  ∃ r, String "a" r ∈ additions runecap (str :: set).
Proof.
  unfold additions.
  assert (∃ ldh', runes ldhChars = "a"%char :: ldh') as [ldh' ->]
    by (eexists; reflexivity).
  cbn [foldl].
  assert (∃ r, String "a" r ∈ additions_string runecap ("a"%char :: ldh') [] str)
    as [r Hr].
  { unfold additions_string.
    generalize (length (runes str) <? runecap (length (runes str)))%nat.
    generalize (runes str). intros rstr shared.
    replace (length rstr + 1)%nat with (S (length rstr)) by lia.
    cbn [seq foldl].
    assert (∃ r, String "a" r ∈
              snd (additions_position shared ("a"%char :: ldh') (length rstr)
                     (rstr, []) 0%nat)) as [r Hr].
    { unfold additions_position. cbn [foldl nth].
      assert (∃ r st, additions_symbol shared "a" (length rstr) 0 (rstr, []) "a"
                      = (st, [String "a" r])) as (r & st & ->).
      { unfold additions_symbol, copy_within.
        destruct rstr as [|x rstr']; cbn; by eexists _, _. }
      exists r.
      eapply elem_of_prefix; [|apply (foldl_snd_prefix _ _
        (additions_symbol_prefix _ _ _ _) (st, [String "a" r]))].
      simpl. by left. }
    exists r. eapply elem_of_prefix; [exact Hr|].
    apply (foldl_snd_prefix _ _ (additions_position_prefix _ _ _)). }
  exists r. eapply elem_of_prefix; [exact Hr|].
  apply foldl_prefix. intros. apply additions_string_prefix.
Qed.

(** On one candidate the capacity matters only through whether there is room
    behind the candidate. *)
Lemma additions_shared_only runecap (str : string) :
  additions runecap [str]
  = if (String.length str <? runecap (String.length str))%nat
    then additions (fun n => S n) [str]
    else additions (fun n => n) [str].
Proof.
  unfold additions. cbn [foldl]. unfold additions_string.
  assert (length (runes str) = String.length str) as ->.
  { unfold runes. induction str; simpl; [done|]. by f_equal. }
  destruct (_ <? runecap _)%nat.
  - by rewrite (proj2 (Nat.ltb_lt _ _) (Nat.lt_succ_diag_r _)).
  - by rewrite Nat.ltb_irrefl.
Qed.

Lemma fuzz_results_head runecap (name : string) (n : nat) :
  ∃ tl, Nat.iter n (fuzz_round runecap) [name] = name :: tl.
Proof.
  induction n as [|n [tl IH]]; simpl; [by eexists|].
  rewrite IH. unfold fuzz_round. by eexists.
Qed.

Lemma fuzz_results_addition runecap (name : string) (n : nat) :
  (0 < n)%nat → ∃ r, String "a" r ∈ Nat.iter n (fuzz_round runecap) [name].
Proof.
  destruct n as [|n]; [lia|]. intros _. simpl.
  destruct (fuzz_results_head runecap name n) as [tl ->].
  destruct (additions_first runecap name tl) as [r Hr].
  exists r. unfold fuzz_round. rewrite !elem_of_app. auto.
Qed.

(** A bound on the size and two members of a result, read off a Boolean
    that evaluation decides. *)
Lemma checked_names (o : outcome (gset string)) (bound : nat) (x y : string) :
  match o with
  | Returned names =>
      (size names <=? bound)%nat && bool_decide (x ∈ names) && bool_decide (y ∈ names)
  | Panicked _ => false
  end = true →
  ∃ names, o = Returned names ∧ (size names ≤ bound)%nat ∧ x ∈ names ∧ y ∈ names.
Proof.
  destruct o as [names|e]; [|done]. intros H.
  apply andb_true_iff in H as [H Hy]. apply andb_true_iff in H as [Hsize Hx].
  exists names. split; [done|]. split; [by apply Nat.leb_le|].
  split; by eapply bool_decide_eq_true_1.
Qed.

(** The example of the specification for one round on [ab] does hold on the
    code, whatever the capacity: at most 192 names, and both deletions among
    them ([a] only as the trimmed substitution [-a]). *)
Lemma FuzzyLabelSearches_ab runecap (s : State) :
  EditDistance s = 1 →
  ∃ names, snd (FuzzyLabelSearches runecap "ab.example.com" s) = Returned names ∧
    (size names ≤ 192)%nat ∧
    "a.example.com" ∈ names ∧ "b.example.com" ∈ names.
Proof.
  intros Hdist. unfold FuzzyLabelSearches.
  change (strings_SplitN2 "ab.example.com" ".") with ["ab"; "example.com"].
  cbn [index lookup list_lookup]. rewrite bind_lift_Returned, bind_get.
  rewrite Hdist.
  change (Nat.iter (Z.to_nat 1) (fuzz_round runecap) ["ab"])
    with (fuzz_round runecap ["ab"]).
  unfold fuzz_round. rewrite additions_shared_only. unfold lift, snd.
  apply checked_names.
  destruct (_ <? _)%nat; vm_compute; reflexivity.
Qed.

(** ** Names without a separator *)

(** Each generator on a name without [.]. *)
Lemma FlipWords_no_separator (name : string) (s : State) :
  has_char "." name = false →
  FlipWords name s = (s, Panicked (IndexOutOfRange 1 1)).
Proof.
  intros Hdot. unfold FlipWords. by rewrite (strings_SplitN2_none "." name Hdot).
Qed.

Lemma AppendNumbers_no_separator (name : string) (s : State) :
  has_char "." name = false →
  AppendNumbers name s
  = (s, if decide (strings_Trim name "-" = "") then Returned ∅
        else Panicked (IndexOutOfRange 1 1)).
Proof.
  intros Hdot. unfold AppendNumbers. rewrite (strings_SplitN2_none "." name Hdot).
  cbn [index lookup list_lookup insert list_insert]. rewrite !bind_lift_Returned.
  by destruct (decide (strings_Trim name "-" = "")).
Qed.

Lemma AddSuffixWord_no_separator (name : string) (s : State) :
  has_char "." name = false →
  (strings_Trim name "-" = "" → AddSuffixWord name s = (s, Returned ∅)) ∧
  (strings_Trim name "-" ≠ "" →
   (∃ w n, Counters (Suffixes s) !! w = Some n ∧ MinForWordFlip s ≤ n) →
   AddSuffixWord name s = (s, Panicked (IndexOutOfRange 1 1))) ∧
  (strings_Trim name "-" ≠ "" →
   (∀ w n, Counters (Suffixes s) !! w = Some n → n < MinForWordFlip s) →
   AddSuffixWord name s = (s, Returned ∅)).
Proof.
  intros Hdot. unfold AddSuffixWord. rewrite (strings_SplitN2_none "." name Hdot).
  rewrite bind_Suffixes_RLocked.
  cbn [index lookup list_lookup insert list_insert]. rewrite !bind_lift_Returned.
  destruct (decide (strings_Trim name "-" = "")) as [Hempty|Hne].
  { split; [done|]. by split. }
  rewrite bind_get.
  destruct (range_map_crash (Counters (Suffixes s)) (MinForWordFlip s)
              (IndexOutOfRange 1 1) stringset_New) as [H1 H2].
  split; [done|]. split; intros _ H.
  - unfold lift. f_equal. exact (H1 H).
  - unfold lift. f_equal. exact (H2 H).
Qed.

Lemma FuzzyLabelSearches_no_separator runecap (name : string) (s : State) :
  has_char "." name = false →
  (strings_Trim name "-" ≠ "" ∨ 0 < EditDistance s →
   FuzzyLabelSearches runecap name s = (s, Panicked (IndexOutOfRange 1 1))) ∧
  (strings_Trim name "-" = "" → EditDistance s ≤ 0 →
   FuzzyLabelSearches runecap name s = (s, Returned ∅)).
Proof.
  intros Hdot. unfold FuzzyLabelSearches.
  rewrite (strings_SplitN2_none "." name Hdot).
  cbn [index lookup list_lookup]. rewrite bind_lift_Returned, bind_get.
  unfold lift.
  destruct (range_list_crash (Nat.iter (Z.to_nat (EditDistance s))
              (fuzz_round runecap) [name]) (IndexOutOfRange 1 1) stringset_New)
    as [H1 H2].
  split.
  - intros H. f_equal. apply H1. destruct H as [H|H].
    + exists name. split; [|done].
      destruct (fuzz_results_head runecap name (Z.to_nat (EditDistance s)))
        as [tl ->]. by left.
    + destruct (fuzz_results_addition runecap name (Z.to_nat (EditDistance s)))
        as [r Hr]; [lia|].
      exists (String "a" r). split; [done|]. by apply strings_Trim_nonempty.
  - intros Hempty Hdist. f_equal. apply H2.
    replace (Z.to_nat (EditDistance s)) with 0%nat by lia. simpl.
    by intros alt ->%list_elem_of_singleton.
Qed.

(** C2, amended. No generator has an error result: it returns a set of names
    or stops with a run-time panic. On a name without [.], whose split has
    one part only: [FlipWords] panics at [names[1]] (index out of range [1]
    with length 1) and leaves the caches alone; [FlipNumbers] and
    [AddPrefixWord], which never read the tail, return; [AppendNumbers]
    returns the empty set when the name trims to nothing and panics at
    [parts[1]] otherwise; [AddSuffixWord] does the same, and also returns the
    empty set when no cached word reaches the threshold; [FuzzyLabelSearches]
    panics at [parts[1]] as soon as one candidate does not trim to nothing,
    which is so when the name does not or when there is at least one round of
    edits, and returns the empty set otherwise. *)
Theorem generators_without_separator runecap (name : string) (s : State) :
  has_char "." name = false →
  FlipWords name s = (s, Panicked (IndexOutOfRange 1 1)) ∧
  (∃ names, FlipNumbers name s = (s, Returned names)) ∧
  (∃ names, AddPrefixWord name s = (s, Returned names)) ∧
  AppendNumbers name s
    = (s, if decide (strings_Trim name "-" = "") then Returned ∅
          else Panicked (IndexOutOfRange 1 1)) ∧
  (strings_Trim name "-" = "" → AddSuffixWord name s = (s, Returned ∅)) ∧
  (strings_Trim name "-" ≠ "" →
   (∃ w n, Counters (Suffixes s) !! w = Some n ∧ MinForWordFlip s ≤ n) →
   AddSuffixWord name s = (s, Panicked (IndexOutOfRange 1 1))) ∧
  (strings_Trim name "-" ≠ "" →
   (∀ w n, Counters (Suffixes s) !! w = Some n → n < MinForWordFlip s) →
   AddSuffixWord name s = (s, Returned ∅)) ∧
  (strings_Trim name "-" ≠ "" ∨ 0 < EditDistance s →
   FuzzyLabelSearches runecap name s = (s, Panicked (IndexOutOfRange 1 1))) ∧
  (strings_Trim name "-" = "" → EditDistance s ≤ 0 →
   FuzzyLabelSearches runecap name s = (s, Returned ∅)).
Proof.
  intros Hdot.
  split; [by apply FlipWords_no_separator|].
  split; [apply FlipNumbers_returns|].
  split; [apply AddPrefixWord_returns|].
  split; [by apply AppendNumbers_no_separator|].
  destruct (AddSuffixWord_no_separator name s Hdot) as (H1 & H2 & H3).
  destruct (FuzzyLabelSearches_no_separator runecap name s Hdot) as [H4 H5].
  done.
Qed.

Lemma generators_without_separator_witness :
  has_char "." "host" = false ∧
  FlipWords "host" (NewState ["www"])
  = (NewState ["www"], Panicked (IndexOutOfRange 1 1)).
Proof.
  split; [reflexivity|].
  exact (proj1 (generators_without_separator (fun n => n) "host" (NewState ["www"])
                  eq_refl)).
Defined.

(** On names without [.], [FlipWords] stops with the index panic, and
    [FlipNumbers] returns names that have no tail: neither reports an error
    about its input. *)
Lemma no_separator_no_input_error :
  snd (FlipWords "host" (NewState [])) = Panicked (IndexOutOfRange 1 1) ∧
  snd (FlipNumbers "host1" (NewState []))
  = Returned {[ "host0"; "host1"; "host2"; "host3"; "host4"; "host5"; "host6";
                "host7"; "host8"; "host9"; "host" ]}.
Proof. split; vm_compute; reflexivity. Qed.

(** ** The tail of the name *)

(** Each name that [FlipWords], [FlipNumbers], [AppendNumbers],
    [AddSuffixWord] and [FuzzyLabelSearches] return ends with the tail of the
    name they were given. *)
Lemma FlipWords_keeps_tail (s : State) (label rest : string) names :
  has_char "." label = false →
  snd (FlipWords (label +:+ "." +:+ rest) s) = Returned names →
  ∀ x, x ∈ names → ends_with x ("." +:+ rest).
Proof.
  intros Hdot Hres x Hx. destruct (has_char "-" label) eqn:Hhyphen.
  - destruct (FlipWords_spec s label rest Hdot Hhyphen) as (X & HX & Hin).
    rewrite HX in Hres. simpl in Hres. injection Hres as <-.
    apply Hin in Hx as [(k & c & _ & _ & ->)|(k & c & _ & _ & ->)];
      apply ends_with_app4.
  - rewrite (FlipWords_returns_early s label rest Hdot Hhyphen) in Hres.
    simpl in Hres. injection Hres as <-. by apply elem_of_empty in Hx.
Qed.

Lemma addSuffix_keeps_tail (p0 rest suffix : string) l :
  addSuffix [p0; rest] suffix = Returned l →
  ∀ x, x ∈ l → ends_with x ("." +:+ rest).
Proof.
  intros [= <-] x [->|[->|[]%elem_of_nil]%elem_of_cons]%elem_of_cons.
  - apply ends_with_app3.
  - apply ends_with_app4.
Qed.

Lemma AppendNumbers_keeps_tail (s : State) (label rest : string) names :
  has_char "." label = false →
  snd (AppendNumbers (label +:+ "." +:+ rest) s) = Returned names →
  ∀ x, x ∈ names → ends_with x ("." +:+ rest).
Proof.
  intros Hdot. unfold AppendNumbers.
  change ("." +:+ rest) with (String "." rest).
  rewrite (strings_SplitN2_app "." label rest Hdot).
  cbn [index lookup list_lookup insert list_insert]. rewrite !bind_lift_Returned.
  destruct (decide _) as [_|_].
  { intros [= <-]. nothing_in_empty. }
  unfold lift, snd.
  apply (range_int_invariant (fun X : gset string => ∀ x, x ∈ X → ends_with x (String "." rest))).
  { nothing_in_empty. }
  intros i acc r _ Hacc Hr x Hx.
  destruct (addSuffix _ _) as [l|e] eqn:Hl; [|done]. simpl in Hr. injection Hr as <-.
  apply elem_of_InsertMany in Hx as [Hx|Hx]; [by apply Hacc|].
  by apply (addSuffix_keeps_tail _ _ _ _ Hl).
Qed.

Lemma AddSuffixWord_keeps_tail (s : State) (label rest : string) names :
  has_char "." label = false →
  snd (AddSuffixWord (label +:+ "." +:+ rest) s) = Returned names →
  ∀ x, x ∈ names → ends_with x ("." +:+ rest).
Proof.
  intros Hdot. unfold AddSuffixWord.
  change ("." +:+ rest) with (String "." rest).
  rewrite (strings_SplitN2_app "." label rest Hdot).
  rewrite bind_Suffixes_RLocked.
  cbn [index lookup list_lookup insert list_insert]. rewrite !bind_lift_Returned.
  destruct (decide _) as [_|_].
  { intros [= <-]. nothing_in_empty. }
  rewrite bind_get. unfold lift, snd.
  apply (range_map_invariant (fun X : gset string => ∀ x, x ∈ X → ends_with x (String "." rest))).
  { nothing_in_empty. }
  intros k c acc r _ Hacc Hr x Hx. destruct (_ <=? _).
  - destruct (addSuffix _ _) as [l|e] eqn:Hl; [|done]. simpl in Hr.
    injection Hr as <-.
    apply elem_of_InsertMany in Hx as [Hx|Hx]; [by apply Hacc|].
    by apply (addSuffix_keeps_tail _ _ _ _ Hl).
  - injection Hr as <-. by apply Hacc.
Qed.

Lemma FuzzyLabelSearches_keeps_tail runecap (s : State) (label rest : string) names :
  has_char "." label = false →
  snd (FuzzyLabelSearches runecap (label +:+ "." +:+ rest) s) = Returned names →
  ∀ x, x ∈ names → ends_with x ("." +:+ rest).
Proof.
  intros Hdot. unfold FuzzyLabelSearches.
  change ("." +:+ rest) with (String "." rest).
  rewrite (strings_SplitN2_app "." label rest Hdot).
  cbn [index lookup list_lookup]. rewrite bind_lift_Returned, bind_get.
  unfold lift, snd.
  apply (range_list_invariant (fun X : gset string => ∀ x, x ∈ X → ends_with x (String "." rest))).
  { nothing_in_empty. }
  intros alt acc r _ Hacc Hr x Hx. destruct (decide _).
  - injection Hr as <-. by apply Hacc.
  - simpl in Hr. injection Hr as <-. unfold stringset_Insert in Hx.
    apply elem_of_union in Hx as [->%elem_of_singleton|Hx]; [|by apply Hacc].
    apply ends_with_app.
Qed.

Lemma secondNumberFlip_keeps_tail (label rest : string) (minIndex : Z) l :
  has_char "." label = false →
  secondNumberFlip (label +:+ "." +:+ rest) minIndex = Returned l →
  ∀ x, x ∈ l → ends_with x ("." +:+ rest).
Proof.
  intros Hdot. unfold secondNumberFlip.
  rewrite (strings_SplitN2_dot label rest Hdot).
  cbn [index lookup list_lookup]. rewrite outcome_bind_Returned.
  pose proof (strings_LastIndexFunc_bound label unicode_IsNumber) as Hlast.
  destruct (Z.ltb_spec (strings_LastIndexFunc label unicode_IsNumber) 0) as [?|Hge];
    cbn [orb].
  { intros [= <-] x ->%list_elem_of_singleton. apply ends_with_app. }
  destruct (_ <? minIndex).
  { intros [= <-] x ->%list_elem_of_singleton. apply ends_with_app. }
  destruct (range_int _ _ _ _) as [newNames|e] eqn:Hloop; [|done].
  rewrite outcome_bind_Returned. intros [= <-] x [Hx|Hx]%elem_of_app.
  - revert x Hx. revert Hloop.
    apply (range_int_invariant (fun l : list string =>
      ∀ x, x ∈ l → ends_with x ("." +:+ rest))).
    { intros x Hx. by apply elem_of_nil in Hx. }
    intros i acc r _ Hacc [= <-] x [Hx|Hx]%elem_of_app; [by apply Hacc|].
    apply list_elem_of_singleton in Hx as ->.
    rewrite (slices_of_label label rest (strconv_Itoa i)) by lia.
    apply ends_with_app.
  - apply list_elem_of_singleton in Hx as ->.
    rewrite slices_around_label by lia. apply ends_with_app.
Qed.

Lemma FlipNumbers_keeps_tail (s : State) (label rest : string) names :
  has_char "." label = false →
  snd (FlipNumbers (label +:+ "." +:+ rest) s) = Returned names →
  ∀ x, x ∈ names → ends_with x ("." +:+ rest).
Proof.
  intros Hdot. unfold FlipNumbers.
  rewrite (strings_SplitN2_dot label rest Hdot).
  cbn [index lookup list_lookup]. rewrite bind_lift_Returned.
  pose proof (strings_IndexFunc_bound label unicode_IsNumber) as Hfirst.
  destruct (Z.ltb_spec (strings_IndexFunc label unicode_IsNumber) 0) as [?|Hge].
  { intros [= <-]. nothing_in_empty. }
  destruct (range_int _ _ _ _) as [newNames|e] eqn:Hloop; [|done].
  rewrite bind_lift_Returned.
  destruct (secondNumberFlip _ (-1)) as [l|e] eqn:Hl; [|done].
  rewrite bind_lift_Returned. intros [= <-] x [Hx|Hx]%elem_of_InsertMany.
  - revert x Hx. revert Hloop.
    apply (range_int_invariant (fun X : gset string =>
      ∀ x, x ∈ X → ends_with x ("." +:+ rest))).
    { nothing_in_empty. }
    intros i acc r Hi Hacc.
    destruct (secondNumberFlip _ (_ + 1)) as [l'|e] eqn:Hl'; [|done].
    rewrite outcome_bind_Returned. intros [= <-] x Hx.
    apply elem_of_InsertMany in Hx as [Hx|Hx]; [by apply Hacc|].
    rewrite (slices_of_label label rest (strconv_Itoa i)) in Hl' by lia.
    revert x Hx. eapply secondNumberFlip_keeps_tail; [|exact Hl'].
    unfold slice_to, slice_from.
    rewrite !has_char_app, has_char_take, has_char_Itoa, has_char_drop by (done || lia).
    done.
  - rewrite slices_around_label in Hl by lia.
    revert x Hx. eapply secondNumberFlip_keeps_tail; [|exact Hl].
    unfold slice_to, slice_from.
    by rewrite !has_char_app, has_char_take, has_char_drop.
Qed.

(** X10. Five of the six generators keep the tail of the name: every name
    that [FlipWords], [FlipNumbers], [AppendNumbers], [AddSuffixWord] or
    [FuzzyLabelSearches] returns for [label.rest] ends with [.rest]. *)
Lemma generators_keep_tail runecap (s : State) (label rest : string) names :
  has_char "." label = false →
  snd (FlipWords (label +:+ "." +:+ rest) s) = Returned names ∨
  snd (FlipNumbers (label +:+ "." +:+ rest) s) = Returned names ∨
  snd (AppendNumbers (label +:+ "." +:+ rest) s) = Returned names ∨
  snd (AddSuffixWord (label +:+ "." +:+ rest) s) = Returned names ∨
  snd (FuzzyLabelSearches runecap (label +:+ "." +:+ rest) s) = Returned names →
  ∀ x, x ∈ names → ends_with x ("." +:+ rest).
Proof.
  intros Hdot [H|[H|[H|[H|H]]]].
  - by apply (FlipWords_keeps_tail s label).
  - by apply (FlipNumbers_keeps_tail s label).
  - by apply (AppendNumbers_keeps_tail s label).
  - by apply (AddSuffixWord_keeps_tail s label).
  - by apply (FuzzyLabelSearches_keeps_tail runecap s label).
Qed.

Lemma generators_keep_tail_witness :
  (has_char "." "a" = false ∧
   snd (AddSuffixWord ("a" +:+ "." +:+ "b-") (NewState ["www"]))
   = Returned {[ "awww.b-"; "a-www.b-" ]}) ∧
  ∀ x, x ∈ ({[ "awww.b-"; "a-www.b-" ]} : gset string) → ends_with x ("." +:+ "b-").
Proof.
  assert (snd (AddSuffixWord ("a" +:+ "." +:+ "b-") (NewState ["www"]))
          = Returned {[ "awww.b-"; "a-www.b-" ]}) as H
    by (vm_compute; reflexivity).
  split; [by split|].
  apply (generators_keep_tail (fun n => n) (NewState ["www"]) "a" "b-" _ eq_refl).
  right. right. right. left. exact H.
Defined.

(** C7, at the name [a.b-] with the word [www] in the cache. [AddPrefixWord]
    trims the hyphens at the end of the whole name, that is of the tail: no
    name of the result ends with [.b-]. *)
Theorem AddPrefixWord_trims_tail :
  snd (AddPrefixWord "a.b-" (NewState ["www"]))
  = Returned {[ "wwwa.b"; "www-a.b" ]}.
Proof. vm_compute. reflexivity. Qed.

(** * Further properties of the code *)

(** ** The cache when it is built *)

Lemma seed_lookup (seed : list string) (m : gmap string Z) (w : string) :
  foldl (fun m word => <[word := 0]> m) m seed !! w
  = if decide (w ∈ seed) then Some 0 else m !! w.
Proof.
  revert m. induction seed as [|x seed IH]; intros m; simpl.
  - destruct (decide (w ∈ [])) as [H%elem_of_nil|]; done.
  - rewrite IH. destruct (decide (w ∈ seed)) as [Hin|Hout].
    + rewrite decide_True; [done|]. by right.
    + destruct (decide (x = w)) as [->|Hne].
      * rewrite lookup_insert_eq, decide_True; [done|]. by left.
      * rewrite lookup_insert_ne by done. rewrite decide_False; [done|].
        intros [?|?]%elem_of_cons; congruence.
Qed.

(** X1. [NewCache] maps every word of the seed to the count 0, however often
    the seed lists it, and holds no other word. *)
Theorem NewCache_seeds (seed : list string) (w : string) :
  Counters (NewCache seed) !! w = if decide (w ∈ seed) then Some 0 else None.
Proof. unfold NewCache. simpl. by rewrite seed_lookup, lookup_empty. Qed.

(** ** Loops that insert into the set of names *)

Lemma range_map_InsertMany (counters : gmap string Z) (min : Z)
    (f : string → list string) (body : string → Z → gset string → outcome (gset string))
    (init : gset string) :
  (∀ k count acc, body k count acc
     = if min <=? count then Returned (stringset_InsertMany acc (f k))
       else Returned acc) →
  ∃ X, range_map counters body init = Returned X ∧
       ∀ x, x ∈ X ↔
         x ∈ init ∨ ∃ k count, counters !! k = Some count ∧ min ≤ count ∧ x ∈ f k.
Proof.
  intros Hbody. unfold range_map.
  apply (map_fold_weak_ind (fun (b : outcome (gset string)) (m : gmap string Z) =>
    ∃ X, b = Returned X ∧
      ∀ x, x ∈ X ↔ x ∈ init ∨ ∃ k count, m !! k = Some count ∧ min ≤ count ∧ x ∈ f k)).
  - exists init. split; [done|]. intros x. split; [by left|].
    intros [H|(k & count & H & _)]; [done|]. by rewrite lookup_empty in H.
  - intros k count m r Hk (X & -> & HX). rewrite outcome_bind_Returned, Hbody.
    destruct (Z.leb_spec min count) as [Hmin|Hmin].
    + eexists. split; [done|]. intros x. rewrite elem_of_InsertMany, HX. split.
      * intros [[H|(k' & c' & H1 & H2 & H3)]|H]; [by left|right|right].
        -- exists k', c'. rewrite lookup_insert_ne; [done|]. intros ->. congruence.
        -- exists k, count. by rewrite lookup_insert_eq.
      * intros [H|(k' & c' & H1 & H2 & H3)]; [by left; left|].
        destruct (decide (k = k')) as [->|Hne]; [by right|].
        left. right. exists k', c'. by rewrite lookup_insert_ne in H1.
    + exists X. split; [done|]. intros x. rewrite HX. split.
      * intros [H|(k' & c' & H1 & H2 & H3)]; [by left|right].
        exists k', c'. rewrite lookup_insert_ne; [done|]. intros ->. congruence.
      * intros [H|(k' & c' & H1 & H2 & H3)]; [by left|].
        destruct (decide (k = k')) as [->|Hne].
        -- rewrite lookup_insert_eq in H1. simplify_eq. lia.
        -- right. exists k', c'. by rewrite lookup_insert_ne in H1.
Qed.

Lemma range_list_InsertMany {A} (l : list A) (f : A → list string)
    (body : A → gset string → outcome (gset string)) (init : gset string) :
  (∀ a acc, a ∈ l → body a acc = Returned (stringset_InsertMany acc (f a))) →
  ∃ X, range_list l body init = Returned X ∧
       ∀ x, x ∈ X ↔ x ∈ init ∨ ∃ a, a ∈ l ∧ x ∈ f a.
Proof.
  unfold range_list. revert init.
  induction l as [|a l IH]; intros init Hbody; simpl.
  - exists init. split; [done|]. intros x. split; [by left|].
    intros [H|(a & H & _)]; [done|]. by apply elem_of_nil in H.
  - rewrite Hbody by (by left).
    destruct (IH (stringset_InsertMany init (f a))) as (X & -> & HX).
    { intros a' acc Ha'. apply Hbody. by right. }
    exists X. split; [done|]. intros x. rewrite HX, elem_of_InsertMany. split.
    + intros [[H|H]|(a' & H1 & H2)]; [by left|right|right].
      * exists a. split; [by left|done].
      * exists a'. split; [by right|done].
    + intros [H|(a' & [->|H1]%elem_of_cons & H2)]; [by left; left|by left; right|].
      right. by exists a'.
Qed.

(** ** Appended words and numbers, in full *)

(** [AddPrefixWord] never fails and leaves the state alone. It returns
    nothing when the name trims to nothing; otherwise it returns, for every
    word of [Prefixes] whose count reaches [MinForWordFlip], the word put
    before the trimmed name, once directly and once with a hyphen, and
    nothing else. *)
Lemma AddPrefixWord_spec (s : State) (name : string) :
  ∃ names, AddPrefixWord name s = (s, Returned names) ∧
    ∀ x, x ∈ names ↔
      strings_Trim name "-" ≠ "" ∧
      ∃ w c, Counters (Prefixes s) !! w = Some c ∧ MinForWordFlip s ≤ c ∧
             (x = w +:+ strings_Trim name "-" ∨
              x = w +:+ "-" +:+ strings_Trim name "-").
Proof.
  unfold AddPrefixWord. rewrite bind_Prefixes_RLocked.
  destruct (decide (strings_Trim name "-" = "")) as [Hempty|Hne].
  { exists ∅. split; [done|]. intros x. split; [by intros ?%elem_of_empty|].
    by intros [? _]. }
  rewrite bind_get.
  destruct (range_map_InsertMany (Counters (Prefixes s)) (MinForWordFlip s)
    (addPrefix (strings_Trim name "-"))
    (fun word count newNames =>
       if MinForWordFlip s <=? count
       then Returned (stringset_InsertMany newNames
                        (addPrefix (strings_Trim name "-") word))
       else Returned newNames) stringset_New) as (X & HX & Hin); [done|].
  exists X. unfold lift. rewrite HX. split; [done|]. intros x. rewrite Hin.
  unfold stringset_New, addPrefix. rewrite elem_of_empty. split.
  - intros [[]|(w & c & H1 & H2 & H3)]. split; [done|]. exists w, c.
    split; [done|]. split; [done|].
    apply elem_of_cons in H3 as [->|H3]; [by left|].
    apply list_elem_of_singleton in H3 as ->. by right.
  - intros [_ (w & c & H1 & H2 & H3)]. right. exists w, c.
    split; [done|]. split; [done|].
    destruct H3 as [->| ->]; [by left|]. right. by left.
Qed.

(** X4. [AddPrefixWord] never fails and leaves the state alone. It returns
    nothing when the name trims to nothing; otherwise it returns, for every
    word of [Prefixes] whose count reaches [MinForWordFlip], the word put
    before the trimmed name, once directly and once with a hyphen, and
    nothing else. *)
Theorem AddPrefixWord_names (s : State) (name : string) :
  ∃ names, AddPrefixWord name s = (s, Returned names) ∧
    ∀ x, x ∈ names ↔
      strings_Trim name "-" ≠ "" ∧
      ∃ w c, Counters (Prefixes s) !! w = Some c ∧ MinForWordFlip s ≤ c ∧
             (x = w +:+ strings_Trim name "-" ∨
              x = w +:+ "-" +:+ strings_Trim name "-").
Proof. apply AddPrefixWord_spec. Qed.

(** X5. On a state fresh from [NewState] the threshold is 0 and every word
    of the word list has the count 0: [AddPrefixWord] uses each of them at
    once, and only them. *)
Theorem AddPrefixWord_on_NewState (wordlist : list string) (name : string) :
  ∃ names, snd (AddPrefixWord name (NewState wordlist)) = Returned names ∧
    ∀ x, x ∈ names ↔
      strings_Trim name "-" ≠ "" ∧
      ∃ w, w ∈ wordlist ∧
           (x = w +:+ strings_Trim name "-" ∨
            x = w +:+ "-" +:+ strings_Trim name "-").
Proof.
  destruct (AddPrefixWord_spec (NewState wordlist) name) as (X & HX & Hin).
  exists X. rewrite HX. split; [done|]. intros x. rewrite Hin. simpl.
  split; intros [Hne H]; (split; [done|]).
  - destruct H as (w & c & Hw & _ & Hx). exists w. split; [|done].
    rewrite seed_lookup in Hw. by destruct (decide (w ∈ wordlist)).
  - destruct H as (w & Hw & Hx). exists w, 0. split; [|done].
    rewrite seed_lookup. by rewrite decide_True.
Qed.

Lemma addSuffix_two (p0 rest suffix : string) :
  addSuffix [p0; rest] suffix
  = Returned [p0 +:+ suffix +:+ "." +:+ rest; p0 +:+ "-" +:+ suffix +:+ "." +:+ rest].
Proof. reflexivity. Qed.

Lemma AddSuffixWord_spec (s : State) (label rest : string) :
  has_char "." label = false →
  ∃ names, AddSuffixWord (label +:+ "." +:+ rest) s = (s, Returned names) ∧
    ∀ x, x ∈ names ↔
      strings_Trim label "-" ≠ "" ∧
      ∃ w c, Counters (Suffixes s) !! w = Some c ∧ MinForWordFlip s ≤ c ∧
             (x = strings_Trim label "-" +:+ w +:+ "." +:+ rest ∨
              x = strings_Trim label "-" +:+ "-" +:+ w +:+ "." +:+ rest).
Proof.
  intros Hdot. unfold AddSuffixWord.
  rewrite (strings_SplitN2_dot label rest Hdot), bind_Suffixes_RLocked.
  cbn [index lookup list_lookup insert list_insert]. rewrite !bind_lift_Returned.
  destruct (decide (strings_Trim label "-" = "")) as [Hempty|Hne].
  { exists ∅. split; [done|]. intros x. split; [by intros ?%elem_of_empty|].
    by intros [? _]. }
  rewrite bind_get.
  match goal with |- context [range_map ?m ?b ?i] =>
    destruct (range_map_InsertMany m (MinForWordFlip s)
      (fun w => [strings_Trim label "-" +:+ w +:+ "." +:+ rest;
                 strings_Trim label "-" +:+ "-" +:+ w +:+ "." +:+ rest]) b i)
      as (X & HX & Hin) end.
  { intros k count acc. by rewrite addSuffix_two. }
  exists X. unfold lift. rewrite HX. split; [done|]. intros x. rewrite Hin.
  unfold stringset_New. rewrite elem_of_empty. split.
  - intros [[]|(w & c & H1 & H2 & H3)]. split; [done|]. exists w, c.
    split; [done|]. split; [done|].
    apply elem_of_cons in H3 as [->|H3]; [by left|].
    apply list_elem_of_singleton in H3 as ->. by right.
  - intros [_ (w & c & H1 & H2 & H3)]. right. exists w, c.
    split; [done|]. split; [done|].
    destruct H3 as [->| ->]; [by left|]. right. by left.
Qed.

(** The twenty names that [AppendNumbers] makes from a trimmed label. *)
Lemma numbered_names_NoDup (t rest : string) :
  NoDup (flat_map (fun i => [t +:+ strconv_Itoa i +:+ "." +:+ rest;
                             t +:+ "-" +:+ strconv_Itoa i +:+ "." +:+ rest])
           (seq 0 10)).
Proof.
  change (NoDup (String.append t <$>
    flat_map (fun i => [strconv_Itoa i +:+ "." +:+ rest;
                        "-" +:+ strconv_Itoa i +:+ "." +:+ rest]) (seq 0 10))).
  apply (NoDup_fmap_2 _).
  apply (NoDup_fmap_1 (string_take 2)).
  vm_compute. apply (bool_decide_unpack _). vm_compute. reflexivity.
Qed.

Lemma AppendNumbers_spec (s : State) (label rest : string) :
  has_char "." label = false →
  ∃ names, AppendNumbers (label +:+ "." +:+ rest) s = (s, Returned names) ∧
    (∀ x, x ∈ names ↔
       strings_Trim label "-" ≠ "" ∧
       ∃ i, (i < 10)%nat ∧
            (x = strings_Trim label "-" +:+ strconv_Itoa i +:+ "." +:+ rest ∨
             x = strings_Trim label "-" +:+ "-" +:+ strconv_Itoa i +:+ "." +:+ rest)) ∧
    size names = if decide (strings_Trim label "-" = "") then 0%nat else 20%nat.
Proof.
  intros Hdot. unfold AppendNumbers.
  rewrite (strings_SplitN2_dot label rest Hdot).
  cbn [index lookup list_lookup insert list_insert]. rewrite !bind_lift_Returned.
  destruct (decide (strings_Trim label "-" = "")) as [Hempty|Hne].
  { exists ∅. split; [done|]. split; [|done].
    intros x. split; [by intros ?%elem_of_empty|]. by intros [? _]. }
  set (t := strings_Trim label "-") in *.
  set (f := fun i => [t +:+ strconv_Itoa i +:+ "." +:+ rest;
                      t +:+ "-" +:+ strconv_Itoa i +:+ "." +:+ rest]).
  match goal with |- context [range_int ?from ?n ?body ?init] =>
    change (range_int from n body init) with (range_list (seq from n) body init);
    destruct (range_list_InsertMany (seq from n) f body init) as (X & HX & Hin) end.
  { intros i acc _. by rewrite addSuffix_two. }
  exists X. unfold lift. rewrite HX. split; [done|].
  assert (X = list_to_set (flat_map f (seq 0 10))) as HXL.
  { apply set_eq. intros x. rewrite Hin, elem_of_list_to_set, list_elem_of_In, in_flat_map.
    unfold stringset_New. rewrite elem_of_empty. split.
    - intros [[]|(i & Hi & Hx)]. exists i. by rewrite <- !list_elem_of_In.
    - intros (i & Hi & Hx). right. exists i. by rewrite !list_elem_of_In. }
  split.
  - intros x. rewrite Hin. unfold stringset_New. rewrite elem_of_empty. split.
    + intros [[]|(i & Hi & Hx)]. split; [done|]. exists i.
      apply elem_of_seq in Hi. split; [lia|]. unfold f in Hx.
      apply elem_of_cons in Hx as [->|Hx]; [by left|].
      apply list_elem_of_singleton in Hx as ->. by right.
    + intros [_ (i & Hi & Hx)]. right. exists i. split; [apply elem_of_seq; lia|].
      unfold f. destruct Hx as [->| ->]; [by left|]. right. by left.
  - rewrite HXL, size_list_to_set by apply numbered_names_NoDup. reflexivity.
Qed.

(** X6. On a name [label.rest], [AddSuffixWord] leaves the state alone and
    returns nothing when the label trims to nothing; otherwise it returns,
    for every word of [Suffixes] whose count reaches [MinForWordFlip], the
    trimmed label followed by the word, once directly and once with a hyphen,
    each before [.rest], and nothing else. *)
Theorem AddSuffixWord_names (s : State) (label rest : string) :
  has_char "." label = false →
  ∃ names, AddSuffixWord (label +:+ "." +:+ rest) s = (s, Returned names) ∧
    ∀ x, x ∈ names ↔
      strings_Trim label "-" ≠ "" ∧
      ∃ w c, Counters (Suffixes s) !! w = Some c ∧ MinForWordFlip s ≤ c ∧
             (x = strings_Trim label "-" +:+ w +:+ "." +:+ rest ∨
              x = strings_Trim label "-" +:+ "-" +:+ w +:+ "." +:+ rest).
Proof. apply AddSuffixWord_spec. Qed.

Lemma AddSuffixWord_names_witness :
  has_char "." "-api-" = false ∧
  ∃ names,
    AddSuffixWord ("-api-" +:+ "." +:+ "example.com") (NewState ["www"])
    = (NewState ["www"], Returned names) ∧
    ∀ x, x ∈ names ↔
      strings_Trim "-api-" "-" ≠ "" ∧
      ∃ w c, Counters (Suffixes (NewState ["www"])) !! w = Some c ∧
             MinForWordFlip (NewState ["www"]) ≤ c ∧
             (x = strings_Trim "-api-" "-" +:+ w +:+ "." +:+ "example.com" ∨
              x = strings_Trim "-api-" "-" +:+ "-" +:+ w +:+ "." +:+ "example.com").
Proof.
  split; [reflexivity|].
  exact (AddSuffixWord_names (NewState ["www"]) "-api-" "example.com" eq_refl).
Defined.

(** X7. On a name [label.rest], [AppendNumbers] leaves the state alone and
    returns nothing when the label trims to nothing; otherwise it returns the
    trimmed label followed by each of the ten digits, once directly and once
    with a hyphen, each before [.rest]: exactly twenty names. *)
Theorem AppendNumbers_names (s : State) (label rest : string) :
  has_char "." label = false →
  ∃ names, AppendNumbers (label +:+ "." +:+ rest) s = (s, Returned names) ∧
    (∀ x, x ∈ names ↔
       strings_Trim label "-" ≠ "" ∧
       ∃ i, (i < 10)%nat ∧
            (x = strings_Trim label "-" +:+ strconv_Itoa i +:+ "." +:+ rest ∨
             x = strings_Trim label "-" +:+ "-" +:+ strconv_Itoa i +:+ "." +:+ rest)) ∧
    size names = if decide (strings_Trim label "-" = "") then 0%nat else 20%nat.
Proof. apply AppendNumbers_spec. Qed.

Lemma AppendNumbers_names_witness :
  has_char "." "host" = false ∧
  ∃ names,
    AppendNumbers ("host" +:+ "." +:+ "example.com") (NewState []) = (NewState [], Returned names) ∧
    size names = 20%nat.
Proof.
  split; [reflexivity|].
  destruct (AppendNumbers_names (NewState []) "host" "example.com" eq_refl)
    as (names & Hnames & _ & Hsize).
  exists names. split; [exact Hnames|exact Hsize].
Defined.

(** ** Number flips, in full *)






Lemma string_drop_length (a x : string) : string_drop (String.length a) (a +:+ x) = x.
Proof. induction a as [|c a IH]; simpl; [by destruct x|]. done. Qed.












(** ** Word flips and the caches *)

(** X2. On a name [label.rest] whose label has a hyphen, [FlipWords] returns
    exactly these names: for every word of [Prefixes] that reaches
    [MinForWordFlip] once the first part of the label is counted, the word in
    the place of the first part; and for every word of [Suffixes] that
    reaches it once the last part is counted, the word in the place of the
    last part. *)
Theorem FlipWords_flips (s : State) (label rest : string) :
  has_char "." label = false →
  has_char "-" label = true →
  let parts := strings_Split label "-" in
  let s1 := fst (Prefixes_Update (hd "" parts) s) in
  let s2 := fst (Suffixes_Update (List.last parts "") s1) in
  ∃ X, FlipWords (label +:+ "." +:+ rest) s = (s2, Returned X) ∧
    ∀ x, x ∈ X ↔
      (∃ k c, Counters (Prefixes s2) !! k = Some c ∧ MinForWordFlip s ≤ c ∧
         x = k +:+ "-" +:+ strings_Join (drop 1 parts) "-" +:+ "." +:+ rest) ∨
      (∃ k c, Counters (Suffixes s2) !! k = Some c ∧ MinForWordFlip s ≤ c ∧
         x = strings_Join (take (length parts - 1) parts) "-" +:+ "-" +:+ k +:+ "." +:+ rest).
Proof. apply FlipWords_spec. Qed.

Lemma FlipWords_flips_witness :
  (has_char "." "abc-def" = false ∧ has_char "-" "abc-def" = true) ∧
  ∃ X, snd (FlipWords ("abc-def" +:+ "." +:+ "example.com") (NewState ["www"]))
       = Returned X ∧
       "www-def.example.com" ∈ X.
Proof.
  split; [by split|].
  destruct (FlipWords_flips (NewState ["www"]) "abc-def" "example.com" eq_refl eq_refl)
    as (X & HX & Hin).
  exists X. split; [by rewrite HX|]. apply Hin. left. exists "www", 0.
  by repeat split.
Defined.

(** X3. On such a name [FlipWords] changes the state by two updates and
    nothing else: the first part of the label is counted once in [Prefixes],
    the last part once in [Suffixes], also when no word reaches the
    threshold, and the two settings keep their values. *)
Theorem FlipWords_updates (s : State) (label rest : string) :
  has_char "." label = false →
  has_char "-" label = true →
  let s' := fst (FlipWords (label +:+ "." +:+ rest) s) in
  Prefixes s' = fst (Update (Prefixes s) (hd "" (strings_Split label "-"))) ∧
  Suffixes s' = fst (Update (Suffixes s) (List.last (strings_Split label "-") "")) ∧
  MinForWordFlip s' = MinForWordFlip s ∧
  EditDistance s' = EditDistance s.
Proof.
  intros Hdot Hhyphen s'. subst s'.
  destruct (FlipWords_spec s label rest Hdot Hhyphen) as (X & HX & _).
  rewrite HX. cbn [fst]. by rewrite Suffixes_Update_fst, Prefixes_Update_fst.
Qed.

Lemma FlipWords_updates_witness :
  (has_char "." "abc-def" = false ∧ has_char "-" "abc-def" = true) ∧
  Counters (Prefixes (fst (FlipWords ("abc-def" +:+ "." +:+ "example.com")
                             (NewState ["abc"])))) !! "abc" = Some 1 ∧
  Counters (Suffixes (fst (FlipWords ("abc-def" +:+ "." +:+ "example.com")
                             (NewState ["abc"])))) !! "def" = Some 1.
Proof.
  split; [by split|].
  destruct (FlipWords_updates (NewState ["abc"]) "abc-def" "example.com" eq_refl eq_refl)
    as (HP & HS & _).
  rewrite HP, HS. by split.
Defined.

(** ** Names with a separator *)

Lemma FuzzyLabelSearches_spec runecap (s : State) (label rest : string) :
  has_char "." label = false →
  ∃ names,
    FuzzyLabelSearches runecap (label +:+ "." +:+ rest) s = (s, Returned names) ∧
    ∀ x, x ∈ names ↔
      ∃ alt, alt ∈ Nat.iter (Z.to_nat (EditDistance s)) (fuzz_round runecap) [label] ∧
             strings_Trim alt "-" ≠ "" ∧
             x = strings_Trim alt "-" +:+ "." +:+ rest.
Proof.
  intros Hdot. unfold FuzzyLabelSearches.
  rewrite (strings_SplitN2_dot label rest Hdot).
  cbn [index lookup list_lookup]. rewrite bind_lift_Returned, bind_get.
  generalize (Nat.iter (Z.to_nat (EditDistance s)) (fuzz_round runecap) [label]).
  intros l. unfold lift, range_list, stringset_New.
  assert (∀ init : gset string, ∃ X,
    foldl (fun acc alt => acc ≫= fun newNames =>
      if decide (strings_Trim alt "-" = "") then Returned newNames
      else Returned (stringset_Insert newNames (strings_Trim alt "-" +:+ "." +:+ rest)))
      (Returned init) l = Returned X ∧
    ∀ x, x ∈ X ↔ x ∈ init ∨
      ∃ alt, alt ∈ l ∧ strings_Trim alt "-" ≠ "" ∧
             x = strings_Trim alt "-" +:+ "." +:+ rest) as H.
  { induction l as [|a l IH]; intros init; cbn [foldl].
    - exists init. split; [done|]. intros x. split; [by left|].
      intros [H|(alt & H & _)]; [done|]. by apply elem_of_nil in H.
    - rewrite outcome_bind_Returned.
      destruct (decide (strings_Trim a "-" = "")) as [Ha|Ha].
      + destruct (IH init) as (X & -> & HX). exists X. split; [done|].
        intros x. rewrite HX. split.
        * intros [H|(alt & H1 & H2)]; [by left|right]. exists alt.
          split; [by right|done].
        * intros [H|(alt & [->|H1]%elem_of_cons & H2 & H3)]; [by left|done|].
          right. by exists alt.
      + destruct (IH (stringset_Insert init (strings_Trim a "-" +:+ "." +:+ rest)))
          as (X & -> & HX).
        exists X. split; [done|]. intros x. rewrite HX. unfold stringset_Insert.
        rewrite elem_of_union, elem_of_singleton. split.
        * intros [[->|H]|(alt & H1 & H2)]; [right|by left|right].
          -- exists a. split; [by left|done].
          -- exists alt. split; [by right|done].
        * intros [H|(alt & [->|H1]%elem_of_cons & H2 & H3)];
            [by left; right|by left; left|].
          right. by exists alt. }
  destruct (H ∅) as (X & HX & Hin). exists X. split; [f_equal; exact HX|].
  intros x. rewrite Hin, elem_of_empty. split; [by intros [[]|Hx]|by right].
Qed.

Lemma FlipWords_returns (s : State) (label rest : string) :
  has_char "." label = false →
  ∃ names, snd (FlipWords (label +:+ "." +:+ rest) s) = Returned names.
Proof.
  intros Hdot. destruct (has_char "-" label) eqn:Hhyphen.
  - destruct (FlipWords_spec s label rest Hdot Hhyphen) as (X & -> & _). by exists X.
  - rewrite (FlipWords_returns_early s label rest Hdot Hhyphen). by eexists.
Qed.

(** X11. On a name with a separator no generator panics: each of the six
    returns a set of names. *)
Theorem generators_return runecap (s : State) (label rest : string) :
  has_char "." label = false →
  (∃ names, snd (FlipWords (label +:+ "." +:+ rest) s) = Returned names) ∧
  (∃ names, snd (FlipNumbers (label +:+ "." +:+ rest) s) = Returned names) ∧
  (∃ names, snd (AppendNumbers (label +:+ "." +:+ rest) s) = Returned names) ∧
  (∃ names, snd (AddSuffixWord (label +:+ "." +:+ rest) s) = Returned names) ∧
  (∃ names, snd (AddPrefixWord (label +:+ "." +:+ rest) s) = Returned names) ∧
  (∃ names, snd (FuzzyLabelSearches runecap (label +:+ "." +:+ rest) s)
            = Returned names).
Proof.
  intros Hdot. split; [by apply FlipWords_returns|].
  split. { destruct (FlipNumbers_returns (label +:+ "." +:+ rest) s) as [X ->]. by exists X. }
  split. { destruct (AppendNumbers_spec s label rest Hdot) as (X & -> & _). by exists X. }
  split. { destruct (AddSuffixWord_spec s label rest Hdot) as (X & -> & _). by exists X. }
  split. { destruct (AddPrefixWord_returns (label +:+ "." +:+ rest) s) as [X ->]. by exists X. }
  destruct (FuzzyLabelSearches_spec runecap s label rest Hdot) as (X & -> & _). by exists X.
Qed.

Lemma generators_return_witness :
  has_char "." "ab" = false ∧
  ∃ names, snd (FuzzyLabelSearches (fun n => n) ("ab" +:+ "." +:+ "example.com")
                  (mkState 0 1 (NewCache []) (NewCache []))) = Returned names.
Proof.
  split; [reflexivity|].
  exact (proj2 (proj2 (proj2 (proj2 (proj2
    (generators_return (fun n => n) (mkState 0 1 (NewCache []) (NewCache []))
       "ab" "example.com" eq_refl)))))).
Defined.

(** X12. [FlipNumbers], [AppendNumbers] and [FuzzyLabelSearches] use no
    cache: on every name, whether they return or panic, the state after the
    call is the state before it. *)
Theorem generators_leave_state runecap (s : State) (name : string) :
  fst (FlipNumbers name s) = s ∧
  fst (AppendNumbers name s) = s ∧
  fst (FuzzyLabelSearches runecap name s) = s.
Proof.
  split; [apply read_only_FlipNumbers|].
  split; [apply read_only_AppendNumbers|apply read_only_FuzzyLabelSearches].
Qed.

(** ** Fuzzy label searches, in full *)

Lemma fuzz_round_prefix runecap (results : list string) :
  results `prefix_of` fuzz_round runecap results.
Proof. unfold fuzz_round. by apply prefix_app_r. Qed.

Lemma fuzz_rounds_prefix runecap (l : list string) (n m : nat) :
  (n ≤ m)%nat →
  Nat.iter n (fuzz_round runecap) l `prefix_of` Nat.iter m (fuzz_round runecap) l.
Proof.
  induction 1 as [|m _ IH]; [done|]. simpl.
  etrans; [exact IH|apply fuzz_round_prefix].
Qed.

Lemma strings_TrimLeft_head (s : string) :
  match strings_TrimLeft s "-" with
  | String c _ => c ≠ "-"%char
  | EmptyString => True
  end.
Proof.
  induction s as [|c s IH]; simpl; [done|].
  destruct (Ascii.eqb_spec c "-"); done.
Qed.

Lemma strings_TrimLeft_fixed (c : ascii) (s : string) :
  c ≠ "-"%char → strings_TrimLeft (String c s) "-" = String c s.
Proof. intros Hc. simpl. by destruct (Ascii.eqb_spec c "-"). Qed.

Lemma strings_TrimRight_head (c : ascii) (s : string) :
  c ≠ "-"%char → ∃ r, strings_TrimRight (String c s) "-" = String c r.
Proof.
  intros Hc. simpl. destruct (strings_TrimRight s "-"); [|by eexists].
  destruct (Ascii.eqb_spec c "-"); [done|by eexists].
Qed.

Lemma strings_TrimRight_cons (a : ascii) (s : string) (c : ascii) :
  strings_TrimRight (String a s) c
  = match strings_TrimRight s c with
    | EmptyString => if Ascii.eqb a c then EmptyString else String a EmptyString
    | r => String a r
    end.
Proof. reflexivity. Qed.

Lemma strings_TrimRight_idem (s : string) :
  strings_TrimRight (strings_TrimRight s "-") "-" = strings_TrimRight s "-".
Proof.
  induction s as [|c s IH]; [done|]. rewrite strings_TrimRight_cons.
  destruct (strings_TrimRight s "-") as [|c' r] eqn:Hr.
  - destruct (Ascii.eqb_spec c "-") as [->|Hne]; [done|].
    rewrite strings_TrimRight_cons. simpl. by destruct (Ascii.eqb_spec c "-").
  - rewrite strings_TrimRight_cons. by rewrite IH.
Qed.

(** What [strings.Trim] returns has no hyphen left to trim. *)
Lemma strings_Trim_idem (s : string) :
  strings_Trim (strings_Trim s "-") "-" = strings_Trim s "-".
Proof.
  unfold strings_Trim. pose proof (strings_TrimLeft_head s) as Hhead.
  destruct (strings_TrimLeft s "-") as [|c u]; [done|].
  destruct (strings_TrimRight_head c u Hhead) as [r Hr].
  rewrite Hr, (strings_TrimLeft_fixed c r Hhead), <- Hr.
  apply strings_TrimRight_idem.
Qed.

(** X17. Every name that [FuzzyLabelSearches] returns for [label.rest] is a
    label before [.rest] that is not empty and has no hyphen left to trim at
    either end. *)
Theorem FuzzyLabelSearches_shape runecap (s : State) (label rest : string) names :
  has_char "." label = false →
  snd (FuzzyLabelSearches runecap (label +:+ "." +:+ rest) s) = Returned names →
  ∀ x, x ∈ names →
    ∃ l, x = l +:+ "." +:+ rest ∧ l ≠ "" ∧ strings_Trim l "-" = l.
Proof.
  intros Hdot Hres x Hx.
  destruct (FuzzyLabelSearches_spec runecap s label rest Hdot) as (X & HX & Hin).
  rewrite HX in Hres. injection Hres as <-.
  apply Hin in Hx as (alt & _ & Hne & ->).
  exists (strings_Trim alt "-"). split; [done|]. split; [done|].
  apply strings_Trim_idem.
Qed.

Lemma FuzzyLabelSearches_shape_witness :
  (has_char "." "-ab" = false ∧
   snd (FuzzyLabelSearches (fun n => n) ("-ab" +:+ "." +:+ "example.com") (NewState []))
   = Returned {[ "ab.example.com" ]}) ∧
  ∀ x, x ∈ ({[ "ab.example.com" ]} : gset string) →
    ∃ l, x = l +:+ "." +:+ "example.com" ∧ l ≠ "" ∧ strings_Trim l "-" = l.
Proof.
  assert (snd (FuzzyLabelSearches (fun n => n) ("-ab" +:+ "." +:+ "example.com")
                 (NewState [])) = Returned {[ "ab.example.com" ]}) as H
    by (vm_compute; reflexivity).
  split; [by split|].
  exact (FuzzyLabelSearches_shape (fun n => n) (NewState []) "-ab" "example.com"
           {[ "ab.example.com" ]} eq_refl H).
Defined.

(** X18. Without a round of edits ([EditDistance <= 0]) [FuzzyLabelSearches]
    returns the name with its label trimmed, and nothing when the label
    trims to nothing. *)
Theorem FuzzyLabelSearches_no_round runecap (s : State) (label rest : string) :
  has_char "." label = false →
  EditDistance s ≤ 0 →
  FuzzyLabelSearches runecap (label +:+ "." +:+ rest) s
  = (s, Returned (if decide (strings_Trim label "-" = "") then ∅
                  else {[ strings_Trim label "-" +:+ "." +:+ rest ]})).
Proof.
  intros Hdot Hdist.
  destruct (FuzzyLabelSearches_spec runecap s label rest Hdot) as (X & -> & Hin).
  do 2 f_equal. apply set_eq. intros x. rewrite Hin.
  replace (Z.to_nat (EditDistance s)) with 0%nat by lia. simpl. split.
  - intros (alt & ->%list_elem_of_singleton & Hne & ->).
    rewrite decide_False by done. by apply elem_of_singleton.
  - destruct (decide (strings_Trim label "-" = "")) as [He|Hne];
      [by intros ?%elem_of_empty|].
    intros ->%elem_of_singleton. exists label. split; [by left|done].
Qed.

Lemma FuzzyLabelSearches_no_round_witness :
  (has_char "." "-ab-" = false ∧ EditDistance (NewState ["www"]) ≤ 0) ∧
  FuzzyLabelSearches (fun n => n) ("-ab-" +:+ "." +:+ "example.com") (NewState ["www"])
  = (NewState ["www"],
     Returned (if decide (strings_Trim "-ab-" "-" = "") then ∅
               else {[ strings_Trim "-ab-" "-" +:+ "." +:+ "example.com" ]})).
Proof.
  assert (EditDistance (NewState ["www"]) ≤ 0) as H by (simpl; lia).
  split; [by split|].
  exact (FuzzyLabelSearches_no_round (fun n => n) (NewState ["www"]) "-ab-"
           "example.com" eq_refl H).
Defined.

(** X19. More rounds of edits lose no name: what [FuzzyLabelSearches] returns
    for a smaller [EditDistance] is part of what it returns for a larger one;
    and whatever the number of rounds, the name with its label trimmed is
    returned when that label is not empty. *)
Theorem FuzzyLabelSearches_rounds runecap (s s' : State) (label rest : string)
    names names' :
  has_char "." label = false →
  EditDistance s ≤ EditDistance s' →
  snd (FuzzyLabelSearches runecap (label +:+ "." +:+ rest) s) = Returned names →
  snd (FuzzyLabelSearches runecap (label +:+ "." +:+ rest) s') = Returned names' →
  names ⊆ names' ∧
  (strings_Trim label "-" ≠ "" → strings_Trim label "-" +:+ "." +:+ rest ∈ names).
Proof.
  intros Hdot Hle Hres Hres'.
  destruct (FuzzyLabelSearches_spec runecap s label rest Hdot) as (X & HX & Hin).
  destruct (FuzzyLabelSearches_spec runecap s' label rest Hdot) as (X' & HX' & Hin').
  rewrite HX in Hres. rewrite HX' in Hres'.
  injection Hres as <-. injection Hres' as <-. split.
  - intros x (alt & Halt & Hne & ->)%Hin. apply Hin'. exists alt.
    split; [|done]. eapply elem_of_prefix; [exact Halt|].
    apply fuzz_rounds_prefix. lia.
  - intros Hne. apply Hin. exists label. split; [|done].
    destruct (fuzz_results_head runecap label (Z.to_nat (EditDistance s))) as [tl ->].
    by left.
Qed.

Lemma FuzzyLabelSearches_rounds_witness :
  (has_char "." "a" = false ∧
   EditDistance (mkState 0 0 (NewCache []) (NewCache []))
     ≤ EditDistance (mkState 0 1 (NewCache []) (NewCache [])) ∧
   snd (FuzzyLabelSearches (fun n => n) ("a" +:+ "." +:+ "b")
          (mkState 0 0 (NewCache []) (NewCache []))) = Returned {[ "a.b" ]}) ∧
  ∃ names',
    snd (FuzzyLabelSearches (fun n => n) ("a" +:+ "." +:+ "b")
           (mkState 0 1 (NewCache []) (NewCache []))) = Returned names' ∧
    {[ "a.b" ]} ⊆ names' ∧ "aa.b" ∈ names'.
Proof.
  assert (snd (FuzzyLabelSearches (fun n => n) ("a" +:+ "." +:+ "b")
                 (mkState 0 0 (NewCache []) (NewCache []))) = Returned {[ "a.b" ]}) as H
    by (vm_compute; reflexivity).
  assert (EditDistance (mkState 0 0 (NewCache []) (NewCache []))
          ≤ EditDistance (mkState 0 1 (NewCache []) (NewCache []))) as Hle
    by (simpl; lia).
  split; [by repeat split|].
  destruct (FuzzyLabelSearches_spec (fun n => n)
              (mkState 0 1 (NewCache []) (NewCache [])) "a" "b" eq_refl)
    as (names' & Hnames' & Hin').
  assert (snd (FuzzyLabelSearches (fun n => n) ("a" +:+ "." +:+ "b")
                 (mkState 0 1 (NewCache []) (NewCache []))) = Returned names') as H'
    by (rewrite Hnames'; reflexivity).
  exists names'. split; [exact H'|]. split.
  - exact (proj1 (FuzzyLabelSearches_rounds (fun n => n) _ _ "a" "b" _ _
                    eq_refl Hle H H')).
  - apply Hin'. exists "aa". split; [|by split].
    apply (bool_decide_unpack
             ("aa" ∈ Nat.iter (Z.to_nat (EditDistance
                        (mkState 0 1 (NewCache []) (NewCache []))))
                      (fuzz_round (fun n => n)) ["a"])).
    vm_compute. exact I.
Defined.

(** ** The edits, counted *)















(** ** The edits, in full *)








Lemma array_after_length (r : list ascii) (k : nat) : length (array_after r k) = length r.
Proof. unfold array_after. by rewrite length_fmap, length_seq. Qed.




